(** * Permutation.js: a shallow embedding and its verification

    The development follows the JavaScript source function by function.

    - A JavaScript number is modelled by a mathematical integer ([Z]); the
      model agrees with the source on integers that a double represents
      exactly, which covers every index and character code met here.
    - An array slot or a function result is a [value]: a number or
      [Undefined].
    - A JavaScript string is the list of its UTF-16 code units; a character
      is a string of length one, as in the source.
    - [console.error] only logs, it stores and returns nothing: it is left
      out of the model. *)

From Stdlib Require Import ZArith Ascii String DecimalString.
From stdpp Require Import base numbers option list gmap.

Set Warnings "-clear-no-such-hyp".

Local Open Scope Z_scope.

(** ** JavaScript values *)

Inductive value :=
  | Undefined
  | Num (z : Z).

Global Instance value_eq_dec : EqDecision value.
Proof. solve_decision. Defined.

Definition value_to_option (v : value) : option Z :=
  match v with Undefined => None | Num z => Some z end.

Definition value_of_option (o : option Z) : value :=
  match o with None => Undefined | Some z => Num z end.

Global Instance value_countable : Countable value.
Proof.
  refine (inj_countable' value_to_option value_of_option _).
  by intros [].
Defined.

Global Instance Num_inj : Inj (=) (=) Num.
Proof. intros a b. congruence. Qed.

(** [a != b] and [a == b] between numbers and [undefined]: [undefined] is
    loosely equal to itself only, numbers compare by value. *)
Definition loose_eqb (a b : value) : bool := bool_decide (a = b).

(** [a > b] and [a < b]: a comparison with [undefined] converts it to NaN
    and is false. *)
Definition js_gt (a : value) (b : Z) : bool :=
  match a with Num z => bool_decide (b < z) | Undefined => false end.

Definition js_lt (a : value) (b : Z) : bool :=
  match a with Num z => bool_decide (z < b) | Undefined => false end.

Definition js_ge (a : value) (b : Z) : bool :=
  match a with Num z => bool_decide (b ≤ z) | Undefined => false end.

Definition js_le (a : value) (b : Z) : bool :=
  match a with Num z => bool_decide (z ≤ b) | Undefined => false end.

(** ** Strings *)

(** A string is the list of its code units, each in [0, 65536). *)
Abbreviation jsstring := (list Z) (only parsing).

(** The code units of a literal. *)
Definition units (s : string) : jsstring :=
  (λ a, Z.of_N (N_of_ascii a)) <$> list_ascii_of_string s.

(** [String.fromCharCode(n)]: the argument is reduced modulo 2^16. *)
Definition fromCharCode (n : Z) : jsstring := [n `mod` 65536].

(** [s[i]]: the one-character string at position [i], or [undefined]. *)
Definition char_at (s : jsstring) (i : nat) : option jsstring :=
  (λ u, [u]) <$> s !! i.

(** [s.startsWith(pat)] at the head of [s]. *)
Fixpoint is_prefix (pat s : jsstring) : bool :=
  match pat, s with
  | [], _ => true
  | _ :: _, [] => false
  | a :: pat', b :: s' => bool_decide (a = b) && is_prefix pat' s'
  end.

(** The first position of [s] at which [pat] occurs. *)
Fixpoint find_sub (pat s : jsstring) : option nat :=
  if is_prefix pat s then Some 0%nat
  else match s with
       | [] => None
       | _ :: s' => S <$> find_sub pat s'
       end.

(** [s.indexOf(pat, from)]; [None] stands for -1. *)
Definition indexOf (s pat : jsstring) (from : nat) : option nat :=
  (λ k, (from + k)%nat) <$> find_sub pat (drop from s).

(** [s.substring(i, j)] for [i <= j]. *)
Definition substring (s : jsstring) (i j : nat) : jsstring :=
  take (j - i) (drop i s).

(** The decimal rendering of a number, as [Array.prototype.join] and string
    concatenation produce it. *)
Definition Number_toString (z : Z) : jsstring :=
  units (NilZero.string_of_int (Z.to_int z)).

(** ** Configuration *)

Definition C0 : Z := 48.
Definition C9 : Z := 57.
Definition CA : Z := 65.
Definition CZ : Z := 90.

Definition PERMUTATION_INDEX : Z := 0.
Definition MAX_ALLOWED_PERMUTATION_INDEX : Z := 35.

(** ** Array utilities *)

(** [counts] is an object used as a map. Its keys are the property names
    [String(v)]; on numbers and [undefined] that conversion is injective, so
    the map is keyed by the value itself. *)
Definition count_entry (counts : gmap value nat) (v : value) : gmap value nat :=
  let counts := match counts !! v with
                | None => <[v := 0%nat]> counts
                | Some _ => counts
                end in
  <[v := S (default 0%nat (counts !! v))]> counts.

Definition count_entries (arr : list value) : gmap value nat :=
  foldl count_entry ∅ arr.

Definition hasDuplicates (arr : list value) : bool :=
  existsb (λ kc, bool_decide (2 ≤ kc.2)%nat) (map_to_list (count_entries arr)).

(** ** Validation and construction *)

(** The loop of [validatePermutationArray] over the entries. *)
Fixpoint validate_range (arr : list value) : bool :=
  match arr with
  | [] => true
  | v :: arr' =>
      if js_gt v MAX_ALLOWED_PERMUTATION_INDEX || js_lt v PERMUTATION_INDEX
      then false
      else validate_range arr'
  end.

Definition validatePermutationArray (arr : list value) : bool :=
  if hasDuplicates arr then false else validate_range arr.

(** An initialised object: [values] lists the fields
    [this[PERMUTATION_INDEX + i]], and [length] is their number. *)
Record Permutation := mkPermutation { values : list value }.

Global Instance Permutation_eq_dec : EqDecision Permutation.
Proof. solve_decision. Defined.

Definition plength (p : Permutation) : nat := length (values p).

(** [new Permutation(arr)]. When validation fails the constructor returns
    early: the object has neither [length] nor indexed fields, and no
    Permutation was built ([None]). *)
Definition new_Permutation (arr : list value) : option Permutation :=
  if validatePermutationArray arr then Some (mkPermutation arr) else None.

(** [this[k]] for a key [k] that is a number or [undefined]; a field that
    was never set reads as [undefined]. *)
Definition get (p : Permutation) (k : value) : value :=
  match k with
  | Undefined => Undefined
  | Num z =>
      if bool_decide (PERMUTATION_INDEX ≤ z)
      then default Undefined (values p !! Z.to_nat (z - PERMUTATION_INDEX))
      else Undefined
  end.

Definition at_ (p : Permutation) (i : Z) : value :=
  get p (Num (i + PERMUTATION_INDEX)).

(** The counter of a [for (var i = a; i < a + n; ++i)] loop. *)
Definition counter (a : Z) (n : nat) : list Z :=
  (λ k : nat, a + Z.of_nat k) <$> seq 0 n.

Definition fromFunction (func : Z → value) (n : nat) : option Permutation :=
  new_Permutation (func <$> counter 0 n).

Definition getIdentity (n : nat) : option Permutation :=
  fromFunction (λ i, Num (i + PERMUTATION_INDEX)) n.

Definition clone (p : Permutation) : option Permutation :=
  new_Permutation ((λ i, get p (Num i)) <$> counter PERMUTATION_INDEX (plength p)).

(** ** Cycle decomposition *)

(** The [while (j != i)] loop of [getCycles]. The source loop has no bound:
    [fuel] counts its tests, and [None] means that the loop is still running
    when the fuel is spent. [already_used] is an object used as a set of
    keys. *)
Fixpoint cycle_walk (fuel : nat) (perm : Permutation) (i : Z) (j : value)
    (curr_cycle : list value) (already_used : gset value)
    : option (list value * gset value) :=
  match fuel with
  | O => None
  | S fuel' =>
      if loose_eqb j (Num i) then Some (curr_cycle, already_used)
      else cycle_walk fuel' perm i (get perm j)
             (curr_cycle ++ [j]) ({[j]} ∪ already_used)
  end.

(** The [for] loop of [getCycles], over the remaining values of [i]. *)
Fixpoint getCycles_loop (fuel : nat) (perm : Permutation) (idxs : list Z)
    (already_used : gset value) (cycles : list (list value))
    : option (list (list value)) :=
  match idxs with
  | [] => Some cycles
  | i :: idxs' =>
      if negb (loose_eqb (get perm (Num i)) (Num i))
         && bool_decide (Num i ∉ already_used)
      then
        match cycle_walk fuel perm i (get perm (Num i)) [Num i]
                ({[Num i]} ∪ already_used) with
        | None => None
        | Some (curr_cycle, already_used') =>
            getCycles_loop fuel perm idxs' already_used' (cycles ++ [curr_cycle])
        end
      else getCycles_loop fuel perm idxs' already_used cycles
  end.

(** [getCycles(perm)], and so the [cycles] property, whose getter caches the
    first result. [fuel] bounds each inner loop. *)
Definition getCycles (fuel : nat) (perm : Permutation)
    : option (list (list value)) :=
  getCycles_loop fuel perm (counter 0 (plength perm)) ∅ [].

(** ** Character codec *)

Definition getChar (i : value) : option jsstring :=
  match i with
  | Undefined => None
  | Num z =>
      if bool_decide (0 ≤ z) && bool_decide (z ≤ 9)
      then Some (fromCharCode (C0 + z))
      else if bool_decide (z ≤ MAX_ALLOWED_PERMUTATION_INDEX)
      then Some (fromCharCode (CA + (z - 10)))
      else None
  end.

(** [parseChar(c)] for a string [c]; [charCodeAt(0)] of the empty string is
    NaN, which fails both tests. *)
Definition parseChar (c : jsstring) : value :=
  match c !! 0%nat with
  | None => Undefined
  | Some i =>
      if bool_decide (C0 ≤ i) && bool_decide (i ≤ C9) then Num (i - C0)
      else if bool_decide (CA ≤ i) && bool_decide (i ≤ CZ)
      then Num ((i + 10) - CA)
      else Undefined
  end.

(** ** Rendering *)

(** [Array.prototype.join('')]: [undefined] entries render as the empty
    string. *)
Definition join_strings (l : list (option jsstring)) : jsstring :=
  concat (default [] <$> l).

Definition join_values (l : list value) : jsstring :=
  concat ((λ v, match v with Undefined => [] | Num z => Number_toString z end)
            <$> l).

Definition toString (p : Permutation) : jsstring :=
  join_strings ((λ i, getChar (get p (Num i)))
                  <$> counter PERMUTATION_INDEX (plength p)).

Definition render_cycles (cycles : list (list value)) : jsstring :=
  foldl (λ result c, result ++ (units "(" ++ join_values c) ++ units ")")
        [] cycles.

Definition toCycleString (fuel : nat) (p : Permutation) : option jsstring :=
  render_cycles <$> getCycles fuel p.

(** ** Composition and equality *)

Definition compose_array (this theta : Permutation) : list value :=
  (λ i, get this (get theta (Num i))) <$> counter 0 (plength this).

(** [None] is both the explicit [return undefined] on a length mismatch and
    a constructor that built nothing. *)
Definition compose (this theta : Permutation) : option Permutation :=
  if bool_decide (plength theta ≠ plength this) then None
  else new_Permutation (compose_array this theta).

(** Inside [Permutation.equals], which is called as a method of the
    constructor function, [this] is that function: [this.length] is its
    number of formal parameters, one ([arr]). *)
Definition Permutation_function_length : nat := 1.

Fixpoint equals_loop (left right : Permutation) (idxs : list Z) : bool :=
  match idxs with
  | [] => true
  | i :: idxs' =>
      if negb (loose_eqb (at_ left i) (at_ right i)) then false
      else equals_loop left right idxs'
  end.

Definition Permutation_equals (left right : Permutation) : bool :=
  equals_loop left right (counter 0 Permutation_function_length).

Definition equals (this right : Permutation) : bool :=
  Permutation_equals this right.

(** ** Parsing *)

(** The outcome of a call that may raise. The only exception met in this
    program is the TypeError of [c.charCodeAt(0)] when [c] is
    [undefined]. *)
Inductive completion (A : Type) :=
  | Normal (a : A)
  | TypeError.
Arguments Normal {A} a.
Arguments TypeError {A}.

(** [if (curr > max) max = curr], where [curr] may be [undefined]. *)
Definition max_update (curr : value) (max : Z) : Z :=
  if js_gt curr max then match curr with Num z => z | Undefined => max end
  else max.

(** The non-cycle path of [fromString]. *)
Definition fromString_max_char (s : jsstring) : Z :=
  foldl (λ max_char u, max_update (parseChar [u]) max_char) 0 s.

Definition fromString_array (s : jsstring) : list value :=
  (λ j, if bool_decide (j < Z.of_nat (length s))
        then parseChar (default [] (char_at s (Z.to_nat j)))
        else Num j)
    <$> counter 0 (Z.to_nat (fromString_max_char s + 1)).

(** [splitCycles(s)]: [i] runs over the positions of ['('] in [s]. Each turn
    moves [i] forward, so [S (length s)] turns are enough; the last case of
    the match is never reached (lemma [splitCycles_spec]). *)
Fixpoint splitCycles_loop (fuel : nat) (s : jsstring) (i : option nat)
    (result : list jsstring) : list jsstring :=
  match i, fuel with
  | None, _ => result
  | Some i, S fuel' =>
      let j := indexOf s (units ")") i in
      let result :=
        match j with
        | Some j =>
            if bool_decide (0 < j)%nat && bool_decide (i + 2 < j)%nat
            then result ++ [substring s (i + 1) j]
            else result
        | None => result
        end in
      splitCycles_loop fuel' s (indexOf s (units "(") (i + 1)) result
  | Some _, O => result
  end.

Definition splitCycles (s : jsstring) : list jsstring :=
  splitCycles_loop (S (length s)) s (indexOf s (units "(") 0) [].

(** The argument of [indexOf] is converted to a string. *)
Definition search_string (v : option jsstring) : jsstring :=
  default (units "undefined") v.

(** One turn of the loop of [followCycles], on the cycle [cycles[i]]. *)
Definition follow_cycle (cycle : jsstring) (value : option jsstring)
    : option jsstring :=
  match indexOf cycle (search_string value) 0 with
  | Some index =>
      if bool_decide (Z.of_nat index < Z.of_nat (length cycle) - 1)
      then char_at cycle (index + 1)
      else char_at cycle 0
  | None => value
  end.

(** The loop of [followCycles]: [k] is [i + 1], so the loop visits
    [cycles[k-1]], ..., [cycles[0]]. *)
Fixpoint followCycles_loop (k : nat) (cycles : list jsstring)
    (value : option jsstring) : option jsstring :=
  match k with
  | O => value
  | S i =>
      followCycles_loop i cycles
        (follow_cycle (default [] (cycles !! i)) value)
  end.

Definition followCycles (cycles : list jsstring) (char : option jsstring)
    : option jsstring :=
  followCycles_loop (length cycles) cycles char.

Definition getHighestChar (cycles : list jsstring) : Z :=
  foldl (λ highest cycle,
           foldl (λ highest u, max_update (parseChar [u]) highest)
                 highest cycle)
        0 cycles.

(** [parseChar(followCycles(splits, getChar(i)))]: [parseChar] raises when
    its argument is [undefined]. *)
Definition fromCycleString_entry (splits : list jsstring) (i : Z)
    : completion value :=
  match followCycles splits (getChar (Num i)) with
  | Some c => Normal (parseChar c)
  | None => TypeError
  end.

Fixpoint fromCycleString_array (splits : list jsstring) (idxs : list Z)
    : completion (list value) :=
  match idxs with
  | [] => Normal []
  | i :: idxs' =>
      match fromCycleString_entry splits i with
      | TypeError => TypeError
      | Normal v =>
          match fromCycleString_array splits idxs' with
          | TypeError => TypeError
          | Normal arr => Normal (v :: arr)
          end
      end
  end.

(** [fromCycleString(s, n)]; [n] is [Undefined] when it is not supplied. *)
Definition fromCycleString (s : jsstring) (n : value)
    : completion (option Permutation) :=
  let splits := splitCycles s in
  let n := match n with
           | Undefined => getHighestChar splits
           | Num n => n
           end in
  match fromCycleString_array splits (counter 0 (Z.to_nat (n + 1))) with
  | TypeError => TypeError
  | Normal arr => Normal (new_Permutation arr)
  end.

Definition fromString (s : jsstring) : completion (option Permutation) :=
  if bool_decide (is_Some (indexOf s (units "(") 0))
  then fromCycleString s Undefined
  else Normal (new_Permutation (fromString_array s)).

(** * Notions used in the statements *)

(** An entry passes the range test when it is [undefined] or a number
    between the two bounds. *)
Definition in_range (v : value) : Prop :=
  match v with
  | Undefined => True
  | Num z => PERMUTATION_INDEX ≤ z ≤ MAX_ALLOWED_PERMUTATION_INDEX
  end.

(** The Permutation that exchanges 0 and 10 and fixes 1, ..., 9. *)
Definition swap_0_10 : Permutation :=
  mkPermutation (Num <$> [10; 1; 2; 3; 4; 5; 6; 7; 8; 9; 0]).

(** The code unit of the character that stands for [z]. *)
Definition char_code (z : Z) : Z :=
  if bool_decide (z ≤ 9) then C0 + z else CA + (z - 10).

(** [p] went through the constructor. *)
Definition built (p : Permutation) : Prop :=
  validatePermutationArray (values p) = true.

(** Every stored value of [p] is a number below the end of its domain. *)
Definition below_length (p : Permutation) : Prop :=
  ∀ v, v ∈ values p →
       ∃ z, v = Num z ∧ z < PERMUTATION_INDEX + Z.of_nat (plength p).

(** [below_length] as a test. *)
Definition below_lengthb (p : Permutation) : bool :=
  forallb (λ v, js_lt v (PERMUTATION_INDEX + Z.of_nat (plength p))) (values p).

(** The stored values of a built Permutation whose values are below its
    length: distinct integers of [0, n). *)
Definition segment_perm (zs : list Z) : Prop :=
  NoDup zs ∧
  Forall (λ z, 0 ≤ z < Z.of_nat (length zs)
               ∧ z ≤ MAX_ALLOWED_PERMUTATION_INDEX) zs.

(** The characters of [s] before the first occurrence of [c]. *)
Fixpoint before (c : Z) (s : jsstring) : jsstring :=
  match s with
  | [] => []
  | u :: s' => if bool_decide (u = c) then [] else u :: before c s'
  end.

(** The parenthesized group that opens at position [i] of [s]: the text
    between a ['('] at [i] and the first [')'] after it. *)
Definition group_at (s : jsstring) (i : nat) : option jsstring :=
  if bool_decide (s !! i = Some 40) then
    if bool_decide (41 ∈ drop (S i) s)
    then Some (before 41 (drop (S i) s))
    else None
  else None.

(** The groups that open at the positions [k], ..., [k + m - 1] of [s]. *)
Definition groups_from (s : jsstring) (k m : nat) : list jsstring :=
  omap (group_at s) (seq k m).

(** The parenthesized groups of [s] that hold at least two characters, in
    the order of their appearance. *)
Definition spec_groups (s : jsstring) : list jsstring :=
  filter (λ g, 2 ≤ length g)%nat (groups_from s 0 (length s)).

(** [m] is the highest integer decoded from a character of a group, and 0
    when no character decodes. *)
Definition is_highest (groups : list jsstring) (m : Z) : Prop :=
  (∀ g u z, g ∈ groups → u ∈ g → parseChar [u] = Num z → z ≤ m) ∧
  (m = 0 ∨ ∃ g u, g ∈ groups ∧ u ∈ g ∧ parseChar [u] = Num m).

(** Within a cycle a character maps to the next character, the last one to
    the first; the first occurrence counts, and a character that the cycle
    does not hold maps to itself. *)
Definition next_in_cycle (g : jsstring) (u : Z) : Z :=
  if bool_decide (u ∈ g)
  then default u (g !! (S (length (before u g)) `mod` length g)%nat)
  else u.

(** The image of the index [i]: the cycles are applied to its character in
    the reverse order of their appearance, and the result is decoded. *)
Definition spec_image (groups : list jsstring) (i : Z) : value :=
  parseChar [foldl (λ u g, next_in_cycle g u) (char_code i) (reverse groups)].

(** The numbers decoded from the characters of a string. *)
Definition decoded (g : jsstring) : list Z :=
  omap (λ u, value_to_option (parseChar [u])) g.

(** The [k]-th image of the index [i]. *)
Definition iter_get (p : Permutation) (i : Z) (k : nat) : value :=
  Nat.iter k (get p) (Num i).

(** The first [m] terms of the orbit of [i]: [i], [perm(i)], ... *)
Definition orbit (p : Permutation) (i : Z) (m : nat) : list value :=
  iter_get p i <$> seq 0 m.

(** The first entries of the cycles increase along the list. *)
Definition heads_ascending (cs : list (list value)) : Prop :=
  ∀ (k1 k2 : nat) c1 c2 i1 i2,
    (k1 < k2)%nat → cs !! k1 = Some c1 → cs !! k2 = Some c2 →
    c1 !! 0%nat = Some (Num i1) → c2 !! 0%nat = Some (Num i2) → i1 < i2.

(** [cs] is the disjoint-cycle decomposition of [p], listed as the
    specification describes it. *)
Record cycle_decomposition (p : Permutation) (cs : list (list value)) : Prop := {
  (* a fixed point appears in no cycle *)
  cd_fixed : ∀ c i, c ∈ cs → Num i ∈ c → at_ p i ≠ Num i;
  (* an index that is not fixed appears in a cycle *)
  cd_cover : ∀ i, 0 ≤ i < Z.of_nat (plength p) → at_ p i ≠ Num i →
                  ∃ c, c ∈ cs ∧ Num i ∈ c;
  (* no entry appears twice, in one cycle or in two *)
  cd_disjoint : NoDup (concat cs);
  (* the entries are indices of the domain *)
  cd_members : ∀ c v, c ∈ cs → v ∈ c →
                      ∃ i, v = Num i ∧ 0 ≤ i < Z.of_nat (plength p);
  (* each entry is followed by its image, the last one by the first *)
  cd_orbit : ∀ c (k : nat) v, c ∈ cs → c !! k = Some v →
                    c !! (S k `mod` length c)%nat = Some (get p v);
  (* a cycle starts from its smallest member *)
  cd_head : ∀ c, c ∈ cs →
                 ∃ i, c !! 0%nat = Some (Num i) ∧ ∀ z, Num z ∈ c → i ≤ z;
  (* the cycles are ordered by their smallest member *)
  cd_sorted : heads_ascending cs
}.

(** What holds of [already_used] and [cycles] when the outer loop of
    [getCycles], run on a Permutation [p] of length [n], reaches the index
    [a]. *)
Record loop_inv (p : Permutation) (n a : Z) (used : gset value)
    (cs : list (list value)) : Prop := {
  inv_used : ∀ v, v ∈ used ↔ v ∈ concat cs;
  inv_nodup : NoDup (concat cs);
  inv_cycles : ∀ c, c ∈ cs →
    ∃ i m, c = orbit p i m ∧ 0 ≤ i < a ∧ i < n ∧ (0 < m)%nat ∧
           iter_get p i m = Num i ∧ get p (Num i) ≠ Num i ∧
           ∀ z, Num z ∈ c → i ≤ z;
  inv_cover : ∀ z, 0 ≤ z < a → get p (Num z) ≠ Num z → Num z ∈ used;
  inv_sorted : heads_ascending cs
}.

(** [p] is the result of one of the public operations. *)
Definition constructed (p : Permutation) : Prop :=
  (∃ arr, new_Permutation arr = Some p) ∨
  (∃ func n, fromFunction func n = Some p) ∨
  (∃ n, getIdentity n = Some p) ∨
  (∃ q, clone q = Some p) ∨
  (∃ this theta, compose this theta = Some p) ∨
  (∃ s, fromString s = Normal (Some p)) ∨
  (∃ s n, fromCycleString s n = Normal (Some p)).

(** [at] maps the indices of [p] into the domain, one to one and onto. *)
Definition bijection_of_domain (p : Permutation) : Prop :=
  let n := Z.of_nat (plength p) in
  (∀ i, 0 ≤ i < n →
        ∃ j, at_ p i = Num j ∧
             PERMUTATION_INDEX ≤ j < PERMUTATION_INDEX + n) ∧
  (∀ i i', 0 ≤ i < n → 0 ≤ i' < n → at_ p i = at_ p i' → i = i') ∧
  (∀ j, PERMUTATION_INDEX ≤ j < PERMUTATION_INDEX + n →
        ∃ i, 0 ≤ i < n ∧ at_ p i = Num j).

(** * Verification *)

(** ** Duplicates and validation *)

Lemma count_entry_insert (counts : gmap value nat) (v : value) :
  count_entry counts v = <[v := S (default 0%nat (counts !! v))]> counts.
Proof.
  unfold count_entry. destruct (counts !! v) as [c|] eqn:E.
  - by rewrite E.
  - rewrite lookup_insert_eq. simpl. apply insert_insert_eq.
Qed.

Lemma lookup_count_entries (arr : list value) (counts : gmap value nat) (v : value) :
  foldl count_entry counts arr !! v =
    if decide (count_occ value_eq_dec arr v = 0%nat) then counts !! v
    else Some (count_occ value_eq_dec arr v + default 0 (counts !! v))%nat.
Proof.
  revert counts. induction arr as [|a arr IH]; intros counts; simpl.
  - done.
  - rewrite IH, count_entry_insert. destruct (value_eq_dec a v) as [->|Hne].
    + rewrite lookup_insert_eq. simpl.
      destruct (decide (count_occ value_eq_dec arr v = 0%nat)) as [->|_];
        [done | f_equal; lia].
    + by rewrite lookup_insert_ne.
Qed.

Lemma hasDuplicates_false (arr : list value) :
  hasDuplicates arr = false ↔ NoDup arr.
Proof.
  unfold hasDuplicates, count_entries.
  rewrite NoDup_ListNoDup, (NoDup_count_occ value_eq_dec). split.
  - intros Hex v.
    destruct (decide (count_occ value_eq_dec arr v ≤ 1)%nat) as [|Hgt]; [done|].
    assert (existsb (λ kc : value * nat, bool_decide (2 ≤ kc.2)%nat)
              (map_to_list (foldl count_entry ∅ arr)) = true) as Htrue;
      [|congruence].
    apply existsb_exists. exists (v, count_occ value_eq_dec arr v). split.
    + apply list_elem_of_In, elem_of_map_to_list.
      rewrite lookup_count_entries, lookup_empty. simpl.
      destruct (decide _); [lia | f_equal; lia].
    + apply bool_decide_eq_true. simpl. lia.
  - intros Hle. apply not_true_is_false. intros Hex.
    apply existsb_exists in Hex as ([v c] & Hin & Hc).
    apply list_elem_of_In, elem_of_map_to_list in Hin.
    apply bool_decide_eq_true in Hc. simpl in Hc.
    rewrite lookup_count_entries, lookup_empty in Hin. simpl in Hin.
    destruct (decide _); [done|]. specialize (Hle v).
    injection Hin as <-. lia.
Qed.

Lemma validate_range_true (arr : list value) :
  validate_range arr = true ↔ Forall in_range arr.
Proof.
  induction arr as [|v arr IH]; simpl.
  - split; [constructor | done].
  - rewrite Forall_cons. destruct v as [|z]; simpl.
    + rewrite IH. tauto.
    + repeat case_bool_decide; simpl; rewrite ?IH; intuition (try lia; done).
Qed.

Lemma validatePermutationArray_true (arr : list value) :
  validatePermutationArray arr = true ↔ NoDup arr ∧ Forall in_range arr.
Proof.
  unfold validatePermutationArray.
  rewrite <- hasDuplicates_false, <- validate_range_true.
  destruct (hasDuplicates arr); intuition done.
Qed.

Lemma new_Permutation_Some (arr : list value) (p : Permutation) :
  new_Permutation arr = Some p ↔
    p = mkPermutation arr ∧ NoDup arr ∧ Forall in_range arr.
Proof.
  unfold new_Permutation. rewrite <- validatePermutationArray_true.
  destruct (validatePermutationArray arr); naive_solver.
Qed.

Lemma new_Permutation_None (arr : list value) :
  new_Permutation arr = None ↔ ¬ (NoDup arr ∧ Forall in_range arr).
Proof.
  unfold new_Permutation. rewrite <- validatePermutationArray_true.
  destruct (validatePermutationArray arr); naive_solver.
Qed.

Lemma at_lookup (p : Permutation) (i : nat) (v : value) :
  values p !! i = Some v → at_ p (Z.of_nat i) = v.
Proof.
  intros H. unfold at_, get, PERMUTATION_INDEX.
  rewrite bool_decide_eq_true_2 by lia.
  replace (Z.to_nat (Z.of_nat i + 0 - 0)) with i by lia. by rewrite H.
Qed.

Lemma get_lookup (p : Permutation) (i : nat) (v : value) :
  values p !! i = Some v → get p (Num (Z.of_nat i)) = v.
Proof.
  intros H. rewrite <- (at_lookup p i v H). unfold at_, PERMUTATION_INDEX.
  do 2 f_equal. lia.
Qed.

(** ** Construction from an integer array *)

(** C1. Constructing a Permutation from an integer array fails when the
    array has a duplicate entry or an entry outside
    [PERMUTATION_INDEX, MAX_ALLOWED_PERMUTATION_INDEX]; for an array [v] of
    distinct integers within these bounds it succeeds, the result has length
    [v.length] and [at(i)] is [v[i]] at every index. *)
Theorem new_Permutation_integer_array (v : list Z) :
  ((¬ NoDup v ∨
    ∃ x, x ∈ v ∧
         ¬ (PERMUTATION_INDEX ≤ x ≤ MAX_ALLOWED_PERMUTATION_INDEX)) →
   new_Permutation (Num <$> v) = None) ∧
  (NoDup v →
   (∀ x, x ∈ v → PERMUTATION_INDEX ≤ x ≤ MAX_ALLOWED_PERMUTATION_INDEX) →
   ∃ p, new_Permutation (Num <$> v) = Some p ∧
        plength p = length v ∧
        ∀ (i : nat) x, v !! i = Some x → at_ p (Z.of_nat i) = Num x).
Proof.
  assert (Inj (=) (=) Num) as HNum by (intros a b; congruence).
  split.
  - intros Hbad. apply new_Permutation_None. intros [Hnd Hrange].
    destruct Hbad as [Hdup | (x & Hx & Hout)].
    + apply Hdup. by apply (NoDup_fmap Num).
    + rewrite Forall_fmap, Forall_forall in Hrange. by apply Hout, (Hrange x).
  - intros Hnd Hrange. exists (mkPermutation (Num <$> v)). split; [|split].
    + apply new_Permutation_Some. split; [done|]. split.
      * by apply (NoDup_fmap Num).
      * rewrite Forall_fmap, Forall_forall. intros x Hx. by apply Hrange.
    + unfold plength. simpl. by rewrite length_fmap.
    + intros i x Hi. apply at_lookup. simpl. by rewrite list_lookup_fmap, Hi.
Qed.

Lemma new_Permutation_integer_array_witness :
  new_Permutation (Num <$> [0; 36]) = None ∧
  ∃ p, new_Permutation (Num <$> [1; 2; 0]) = Some p ∧
       plength p = length [1; 2; 0] ∧
       ∀ (i : nat) x, [1; 2; 0] !! i = Some x → at_ p (Z.of_nat i) = Num x.
Proof.
  split.
  - apply (proj1 (new_Permutation_integer_array [0; 36])). right.
    exists 36. split.
    + apply (bool_decide_unpack _). vm_compute. exact I.
    + unfold MAX_ALLOWED_PERMUTATION_INDEX. lia.
  - apply (proj2 (new_Permutation_integer_array [1; 2; 0])).
    + apply (bool_decide_unpack _). vm_compute. exact I.
    + apply Forall_forall, (bool_decide_unpack _). vm_compute. exact I.
Defined.

(** ** Behaviour at particular inputs *)

(** C10. [fromString] applied to the empty string does not fail and does
    not build a Permutation of length 0: it builds the identity on {0},
    whose array is [[0]]. *)
Theorem fromString_empty :
  fromString [] = Normal (Some (mkPermutation [Num 0])) ∧
  plength (mkPermutation [Num 0]) = 1%nat ∧
  getIdentity 1 = Some (mkPermutation [Num 0]).
Proof. by vm_compute. Qed.

(** C9, as stated, fails at the array [[5]]: validation accepts it, and the
    Permutation that is built has length 1 and the stored value 5, which is
    not below its length. [fromString("a")] builds a Permutation whose only
    stored value is [undefined]. *)
Theorem validation_accepts_non_bijection :
  new_Permutation [Num 5] = Some (mkPermutation [Num 5]) ∧
  plength (mkPermutation [Num 5]) = 1%nat ∧
  at_ (mkPermutation [Num 5]) 0 = Num 5 ∧
  ¬ (PERMUTATION_INDEX ≤ 5 < PERMUTATION_INDEX + 1) ∧
  fromString (units "a") = Normal (Some (mkPermutation [Undefined])).
Proof.
  repeat split; try by vm_compute. unfold PERMUTATION_INDEX. lia.
Qed.

Lemma cycle_walk_stuck (fuel : nat) (j : value) (c : list value)
    (used : gset value) :
  j = Num 5 ∨ j = Undefined →
  cycle_walk fuel (mkPermutation [Num 5]) 0 j c used = None.
Proof.
  revert j c used. induction fuel as [|fuel IH]; intros j c used Hj; [done|].
  simpl. destruct Hj as [-> | ->]; by (rewrite IH; [|right]).
Qed.

(** C2, as stated, fails at the array [[5]]: the Permutation is built, and
    the loop of [getCycles] is still running whatever number of turns it is
    given, so the [cycles] property has no value. *)
Theorem getCycles_diverges :
  new_Permutation [Num 5] = Some (mkPermutation [Num 5]) ∧
  ∀ fuel, getCycles fuel (mkPermutation [Num 5]) = None.
Proof.
  split; [by vm_compute|]. intros fuel.
  unfold getCycles, plength. simpl.
  rewrite bool_decide_eq_true_2 by set_solver. simpl.
  rewrite cycle_walk_stuck; [done | by left].
Qed.

(** C5, as stated, fails at [this = [0,1]] and [theta = [2,3]]: both are
    built and have the same length, the composite array is
    [[undefined, undefined]], and no Permutation is built from it. *)
Theorem compose_fails_on_built_permutations :
  new_Permutation [Num 0; Num 1] = Some (mkPermutation [Num 0; Num 1]) ∧
  new_Permutation [Num 2; Num 3] = Some (mkPermutation [Num 2; Num 3]) ∧
  plength (mkPermutation [Num 2; Num 3])
    = plength (mkPermutation [Num 0; Num 1]) ∧
  compose_array (mkPermutation [Num 0; Num 1]) (mkPermutation [Num 2; Num 3])
    = [Undefined; Undefined] ∧
  compose (mkPermutation [Num 0; Num 1]) (mkPermutation [Num 2; Num 3]) = None.
Proof. by vm_compute. Qed.

(** C6, at [[0,1,2]] and [[0,2,1]], and at [[0]] and [[0,1]]: [equals]
    answers true for two Permutations that differ at index 1, and for two
    Permutations of different lengths. *)
Theorem equals_compares_index_0_only :
  equals (mkPermutation [Num 0; Num 1; Num 2])
         (mkPermutation [Num 0; Num 2; Num 1]) = true ∧
  at_ (mkPermutation [Num 0; Num 1; Num 2]) 1
    ≠ at_ (mkPermutation [Num 0; Num 2; Num 1]) 1 ∧
  equals (mkPermutation [Num 0]) (mkPermutation [Num 0; Num 1]) = true ∧
  plength (mkPermutation [Num 0]) ≠ plength (mkPermutation [Num 0; Num 1]).
Proof. by vm_compute. Qed.

(** C7, at the exchange of 0 and 10: the only cycle is [[0, 10]], the
    one-character encoding of 10 is "A", and [toCycleString] renders the
    cycle with the decimal digits of 10, as "(010)". *)
Theorem toCycleString_renders_decimal (fuel : nat) :
  new_Permutation (values swap_0_10) = Some swap_0_10 ∧
  getCycles (2 + fuel) swap_0_10 = Some [[Num 0; Num 10]] ∧
  getChar (Num 10) = Some (units "A") ∧
  toCycleString (2 + fuel) swap_0_10 = Some (units "(010)") ∧
  units "(010)" ≠ units "(0A)".
Proof.
  assert (getCycles (2 + fuel) swap_0_10 = Some [[Num 0; Num 10]]) as Hc
    by (by vm_compute).
  unfold toCycleString. rewrite Hc. by vm_compute.
Qed.

(** C8, at -1: [getChar] does not fail, it returns the character "6". *)
Theorem getChar_negative :
  getChar (Num (-1)) = Some (units "6").
Proof. by vm_compute. Qed.

(** ** Loop counters and field reads *)

Lemma counter_S (a : Z) (n : nat) :
  counter a (S n) = a :: counter (a + 1) n.
Proof.
  unfold counter. simpl. f_equal; [lia|].
  rewrite <- fmap_S_seq, <- list_fmap_compose.
  apply list_fmap_ext. intros _ k _. simpl. lia.
Qed.

Lemma length_counter (a : Z) (n : nat) : length (counter a n) = n.
Proof. unfold counter. by rewrite length_fmap, length_seq. Qed.

Lemma lookup_counter (a : Z) (n k : nat) :
  (k < n)%nat → counter a n !! k = Some (a + Z.of_nat k).
Proof.
  intros Hk. unfold counter. by rewrite list_lookup_fmap, lookup_seq_lt.
Qed.

Lemma elem_of_counter (a : Z) (n : nat) (z : Z) :
  z ∈ counter a n ↔ a ≤ z < a + Z.of_nat n.
Proof.
  unfold counter. rewrite list_elem_of_fmap. split.
  - intros (k & -> & Hk). apply elem_of_seq in Hk. lia.
  - intros Hz. exists (Z.to_nat (z - a)). split; [lia|].
    apply elem_of_seq. lia.
Qed.

Lemma fmap_counter_lookup {A} (f : Z → A) (l : list A) :
  (∀ k x, l !! k = Some x → f (Z.of_nat k) = x) →
  f <$> counter 0 (length l) = l.
Proof.
  intros Hf. apply list_eq. intros k. rewrite list_lookup_fmap.
  destruct (l !! k) as [x|] eqn:E.
  - rewrite lookup_counter by (by eapply lookup_lt_Some). simpl.
    f_equal. rewrite <- (Hf k x E). f_equal.
  - apply lookup_ge_None in E. rewrite (proj2 (lookup_ge_None _ _)); [done|].
    by rewrite length_counter.
Qed.

Lemma get_counter (p : Permutation) :
  (λ i, get p (Num i)) <$> counter PERMUTATION_INDEX (plength p) = values p.
Proof. apply fmap_counter_lookup. intros k x. apply get_lookup. Qed.

(** A built Permutation and its clone hold the same array. *)
Lemma clone_built (p : Permutation) :
  validatePermutationArray (values p) = true → clone p = Some p.
Proof.
  intros Hv. unfold clone. rewrite get_counter. unfold new_Permutation.
  rewrite Hv. by destruct p.
Qed.

(** ** The character codec on its domain *)

Lemma getChar_in_range (z : Z) :
  0 ≤ z ≤ MAX_ALLOWED_PERMUTATION_INDEX →
  getChar (Num z) = Some [char_code z].
Proof.
  unfold getChar, char_code, fromCharCode, MAX_ALLOWED_PERMUTATION_INDEX, C0, CA.
  intros Hz. repeat case_bool_decide; simpl; try lia;
    by rewrite Z.mod_small by lia.
Qed.

Lemma getChar_above (z : Z) :
  MAX_ALLOWED_PERMUTATION_INDEX < z → getChar (Num z) = None.
Proof.
  unfold getChar, MAX_ALLOWED_PERMUTATION_INDEX. intros Hz.
  repeat case_bool_decide; simpl; try lia; done.
Qed.

Lemma parseChar_char_code (z : Z) :
  0 ≤ z ≤ MAX_ALLOWED_PERMUTATION_INDEX → parseChar [char_code z] = Num z.
Proof.
  unfold parseChar, char_code, MAX_ALLOWED_PERMUTATION_INDEX, C0, C9, CA, CZ.
  intros Hz. simpl. repeat case_bool_decide; simpl; try lia; f_equal; lia.
Qed.

(** [parseChar] answers a number on the digits and the capital letters, and
    [getChar] gives the character back. *)
Lemma getChar_parseChar (u : Z) :
  C0 ≤ u ≤ C9 ∨ CA ≤ u ≤ CZ →
  ∃ z, parseChar [u] = Num z ∧ 0 ≤ z ≤ MAX_ALLOWED_PERMUTATION_INDEX ∧
       getChar (Num z) = Some [u].
Proof.
  unfold C0, C9, CA, CZ. intros Hu.
  assert (0 ≤ (if bool_decide (u ≤ 57) then u - 48 else u - 55) ≤ 35) as Hz
    by (case_bool_decide; lia).
  exists (if bool_decide (u ≤ 57) then u - 48 else u - 55).
  split; [|split; [done|]].
  - unfold parseChar, C0, C9, CA, CZ. simpl.
    repeat case_bool_decide; simpl; try lia; f_equal; lia.
  - rewrite getChar_in_range by done. unfold char_code, C0, CA.
    repeat case_bool_decide; do 2 f_equal; lia.
Qed.

(** [parseChar] fails on every other character. *)
Lemma parseChar_outside (u : Z) :
  ¬ (C0 ≤ u ≤ C9 ∨ CA ≤ u ≤ CZ) → parseChar [u] = Undefined.
Proof.
  unfold parseChar, C0, C9, CA, CZ. intros Hu. simpl.
  repeat case_bool_decide; simpl; try done; lia.
Qed.

Lemma parseChar_bounds (c : jsstring) (z : Z) :
  parseChar c = Num z → 0 ≤ z ≤ MAX_ALLOWED_PERMUTATION_INDEX.
Proof.
  unfold parseChar, MAX_ALLOWED_PERMUTATION_INDEX, C0, C9, CA, CZ.
  destruct (c !! 0%nat) as [u|]; [|done].
  repeat case_bool_decide; simpl; intros [= <-]; lia.
Qed.

Lemma char_code_not_paren (z : Z) (u : Z) :
  0 ≤ z ≤ MAX_ALLOWED_PERMUTATION_INDEX → u = 40 ∨ u = 41 → char_code z ≠ u.
Proof.
  unfold char_code, MAX_ALLOWED_PERMUTATION_INDEX, C0, CA.
  case_bool_decide; lia.
Qed.

(** ** Permutations of an initial segment *)

Lemma built_iff (p : Permutation) :
  built p ↔ new_Permutation (values p) = Some p.
Proof.
  unfold built, new_Permutation. destruct p as [l]. simpl.
  destruct (validatePermutationArray l); naive_solver.
Qed.

Lemma below_lengthb_true (p : Permutation) :
  below_lengthb p = true → below_length p.
Proof.
  unfold below_lengthb, below_length. rewrite forallb_forall.
  intros H v Hv%list_elem_of_In. specialize (H v Hv).
  destruct v as [|z]; [done|]. exists z. split; [done|].
  by apply bool_decide_eq_true in H.
Qed.

Lemma values_are_numbers (l : list value) :
  (∀ v, v ∈ l → ∃ z, v = Num z) → ∃ zs, l = Num <$> zs.
Proof.
  induction l as [|v l IH]; intros H.
  - by exists [].
  - destruct (H v) as [z ->]; [by left|].
    destruct IH as [zs ->]; [intros w Hw; apply H; by right|].
    by exists (z :: zs).
Qed.

Lemma segment_perm_values (p : Permutation) :
  built p → below_length p →
  ∃ zs, values p = Num <$> zs ∧ segment_perm zs.
Proof.
  intros Hb Hlt. apply validatePermutationArray_true in Hb as [Hnd Hr].
  destruct (values_are_numbers (values p)) as [zs Hzs].
  { intros v Hv. destruct (Hlt v Hv) as (z & -> & _). by exists z. }
  exists zs. split; [done|]. unfold below_length, plength in Hlt.
  rewrite Hzs in Hnd, Hr, Hlt. split.
  - eapply NoDup_fmap; [|done]. intros a b. congruence.
  - rewrite Forall_fmap, Forall_forall in Hr. apply Forall_forall.
    intros z Hz. pose proof (Hr z Hz) as Hrz. simpl in Hrz.
    destruct (Hlt (Num z)) as (z' & [= <-] & Hz').
    { apply list_elem_of_fmap. by exists z. }
    rewrite length_fmap in Hz'. unfold PERMUTATION_INDEX in *. lia.
Qed.

Lemma segment_perm_built (zs : list Z) :
  segment_perm zs →
  built (mkPermutation (Num <$> zs)) ∧
  below_length (mkPermutation (Num <$> zs)).
Proof.
  intros [Hnd Hr]. rewrite Forall_forall in Hr. split.
  - apply validatePermutationArray_true. simpl. split.
    + apply NoDup_fmap; [intros a b; congruence | done].
    + rewrite Forall_fmap, Forall_forall. intros z Hz. simpl.
      specialize (Hr z Hz). unfold PERMUTATION_INDEX. lia.
  - intros v Hv. simpl in Hv. apply list_elem_of_fmap in Hv as (z & -> & Hz).
    exists z. split; [done|]. specialize (Hr z Hz).
    unfold plength, PERMUTATION_INDEX. simpl. rewrite length_fmap. lia.
Qed.

(** Distinct values of [0, n), [n] of them, reach every index of [0, n). *)
Lemma segment_perm_surj (zs : list Z) (z : Z) :
  segment_perm zs → 0 ≤ z < Z.of_nat (length zs) → z ∈ zs.
Proof.
  intros [Hnd Hr] Hz. rewrite Forall_forall in Hr.
  assert (zs ⊆+ counter 0 (length zs)) as Hsub.
  { apply NoDup_submseteq; [done|]. intros x Hx.
    apply elem_of_counter. specialize (Hr x Hx). lia. }
  apply submseteq_length_Permutation in Hsub;
    [|by rewrite length_counter].
  rewrite Hsub. apply elem_of_counter. lia.
Qed.

Lemma segment_perm_get (zs : list Z) (k : nat) (z : Z) :
  zs !! k = Some z → get (mkPermutation (Num <$> zs)) (Num (Z.of_nat k)) = Num z.
Proof. intros H. apply get_lookup. simpl. by rewrite list_lookup_fmap, H. Qed.

Lemma segment_perm_inj (zs : list Z) (a b : Z) :
  segment_perm zs →
  0 ≤ a < Z.of_nat (length zs) → 0 ≤ b < Z.of_nat (length zs) →
  get (mkPermutation (Num <$> zs)) (Num a)
    = get (mkPermutation (Num <$> zs)) (Num b) →
  a = b.
Proof.
  intros [Hnd _] Ha Hb.
  destruct (lookup_lt_is_Some_2 zs (Z.to_nat a)) as [x Hx]; [lia|].
  destruct (lookup_lt_is_Some_2 zs (Z.to_nat b)) as [y Hy]; [lia|].
  replace a with (Z.of_nat (Z.to_nat a)) at 1 by lia.
  replace b with (Z.of_nat (Z.to_nat b)) at 1 by lia.
  rewrite (segment_perm_get _ _ _ Hx), (segment_perm_get _ _ _ Hy).
  intros [= <-]. pose proof (NoDup_lookup _ _ _ _ Hnd Hx Hy). lia.
Qed.

(** ** The flat string of a Permutation *)

Lemma toString_values (p : Permutation) :
  toString p = join_strings (getChar <$> values p).
Proof.
  unfold toString. rewrite <- (get_counter p) at 1.
  by rewrite <- list_fmap_compose.
Qed.

Lemma join_getChar (zs : list Z) :
  Forall (λ z, 0 ≤ z ≤ MAX_ALLOWED_PERMUTATION_INDEX) zs →
  join_strings (getChar <$> (Num <$> zs)) = char_code <$> zs.
Proof.
  unfold join_strings. induction 1 as [|z zs Hz _ IH]; [done|].
  rewrite !fmap_cons, getChar_in_range by done.
  change (concat (?x :: ?l)) with (x ++ concat l). by rewrite IH.
Qed.

Lemma find_sub_absent (u : Z) (s : jsstring) :
  u ∉ s → find_sub [u] s = None.
Proof.
  induction s as [|b s IH]; intros Hu; [done|].
  apply not_elem_of_cons in Hu as [Hne Hu]. simpl.
  rewrite bool_decide_eq_false_2 by done. simpl. by rewrite IH.
Qed.

Lemma max_update_Num (z max : Z) : max_update (Num z) max = Z.max max z.
Proof. unfold max_update. simpl. case_bool_decide; lia. Qed.

Lemma max_update_Undefined (max : Z) : max_update Undefined max = max.
Proof. done. Qed.

Lemma foldl_max_update_codes (zs : list Z) (a : Z) :
  Forall (λ z, 0 ≤ z ≤ MAX_ALLOWED_PERMUTATION_INDEX) zs →
  foldl (λ max_char u, max_update (parseChar [u]) max_char) a
        (char_code <$> zs)
    = foldl Z.max a zs.
Proof.
  intros H. revert a. induction H as [|z zs Hz _ IH]; intros a; [done|].
  simpl. by rewrite parseChar_char_code, max_update_Num, IH.
Qed.

Lemma foldl_max_spec (zs : list Z) (a : Z) :
  a ≤ foldl Z.max a zs ∧
  Forall (λ z, z ≤ foldl Z.max a zs) zs ∧
  (foldl Z.max a zs = a ∨ foldl Z.max a zs ∈ zs).
Proof.
  revert a. induction zs as [|z zs IH]; intros a; simpl.
  - split; [lia|]. split; [constructor | by left].
  - destruct (IH (Z.max a z)) as (Hle & Hall & Hin). split; [lia|]. split.
    + constructor; [lia | done].
    + destruct Hin as [Heq | Hin]; [|right; by right].
      destruct (Z.max_spec a z) as [[_ Hm] | [_ Hm]].
      * right. rewrite Heq, Hm. by left.
      * left. by rewrite Heq.
Qed.

Lemma segment_perm_max (zs : list Z) :
  segment_perm zs → (0 < length zs)%nat →
  foldl Z.max 0 zs = Z.of_nat (length zs) - 1.
Proof.
  intros Hseg Hlen. destruct (foldl_max_spec zs 0) as (_ & Hall & Hin).
  rewrite Forall_forall in Hall.
  assert (Z.of_nat (length zs) - 1 ≤ foldl Z.max 0 zs) as Hge.
  { apply Hall, segment_perm_surj; [done | lia]. }
  destruct Hin as [Heq | Hin]; [lia|].
  destruct Hseg as [_ Hr]. rewrite Forall_forall in Hr.
  specialize (Hr _ Hin). lia.
Qed.

Lemma segment_perm_range (zs : list Z) :
  segment_perm zs → Forall (λ z, 0 ≤ z ≤ MAX_ALLOWED_PERMUTATION_INDEX) zs.
Proof. intros [_ Hr]. eapply Forall_impl; [done|]. simpl. lia. Qed.

Lemma segment_round_trip (zs : list Z) :
  segment_perm zs → (0 < length zs)%nat →
  fromString (toString (mkPermutation (Num <$> zs)))
    = Normal (Some (mkPermutation (Num <$> zs))).
Proof.
  intros Hseg Hlen. pose proof (segment_perm_range zs Hseg) as Hr.
  rewrite toString_values. simpl values. rewrite join_getChar by done.
  unfold fromString, indexOf. change (units "(") with [40].
  rewrite drop_0, find_sub_absent.
  2:{ intros Hin. apply list_elem_of_fmap in Hin as (z & Hz & Hin).
      rewrite Forall_forall in Hr.
      by apply (char_code_not_paren z 40 (Hr z Hin)); [left|]. }
  simpl. do 2 f_equal.
  assert (fromString_array (char_code <$> zs) = Num <$> zs) as ->.
  { unfold fromString_array, fromString_max_char.
    rewrite foldl_max_update_codes, segment_perm_max by done.
    replace (Z.to_nat (Z.of_nat (length zs) - 1 + 1))
      with (length (Num <$> zs)) by (rewrite length_fmap; lia).
    apply fmap_counter_lookup. intros k x Hk.
    rewrite list_lookup_fmap in Hk.
    destruct (zs !! k) as [z|] eqn:E; [|done]. injection Hk as <-.
    pose proof (lookup_lt_Some _ _ _ E) as Hlt.
    rewrite length_fmap, bool_decide_eq_true_2 by lia.
    unfold char_at. rewrite Nat2Z.id, list_lookup_fmap, E. simpl.
    rewrite Forall_forall in Hr. apply parseChar_char_code, Hr.
    by eapply list_elem_of_lookup_2. }
  pose proof (proj1 (built_iff (mkPermutation (Num <$> zs)))) as Hb.
  simpl in Hb. apply Hb. by apply segment_perm_built.
Qed.

(** C3, as amended. For every built Permutation [p] of length at least 1
    whose stored values are all below its length, [fromString(p.toString())]
    succeeds and yields a Permutation equal to [p]: the same length and the
    same image at every index. *)
Theorem fromString_toString (p : Permutation) :
  built p → below_length p → (0 < plength p)%nat →
  ∃ q, fromString (toString p) = Normal (Some q) ∧
       plength q = plength p ∧
       ∀ i, at_ q i = at_ p i.
Proof.
  intros Hb Hlt Hlen. destruct (segment_perm_values p Hb Hlt) as (zs & Hzs & Hseg).
  exists p. split; [|done]. destruct p as [l]. simpl in Hzs. subst l.
  apply segment_round_trip; [done|].
  unfold plength in Hlen. simpl in Hlen. by rewrite length_fmap in Hlen.
Qed.

Lemma fromString_toString_witness :
  ∃ q, fromString (toString (mkPermutation [Num 1; Num 2; Num 0]))
         = Normal (Some q) ∧
       plength q = plength (mkPermutation [Num 1; Num 2; Num 0]) ∧
       ∀ i, at_ q i = at_ (mkPermutation [Num 1; Num 2; Num 0]) i.
Proof.
  apply (fromString_toString (mkPermutation [Num 1; Num 2; Num 0])).
  - reflexivity.
  - apply below_lengthb_true. reflexivity.
  - unfold plength. simpl. lia.
Defined.

(** C3, as stated, fails at the empty Permutation, which [getIdentity(0)]
    builds: its string is empty and [fromString] builds from it a Permutation
    of length 1. It fails at the built Permutation [[5]] as well, whose
    string is "5": no Permutation is built from it. *)
Lemma round_trip_fails :
  (getIdentity 0 = Some (mkPermutation []) ∧
   built (mkPermutation []) ∧
   ¬ ∃ q, fromString (toString (mkPermutation [])) = Normal (Some q) ∧
          plength q = plength (mkPermutation [])) ∧
  (built (mkPermutation [Num 5]) ∧
   ¬ ∃ q, fromString (toString (mkPermutation [Num 5])) = Normal (Some q)).
Proof.
  split; split; try by vm_compute.
  - split; [by vm_compute|]. intros (q & Hq & Hlen).
    vm_compute in Hq. injection Hq as <-. by vm_compute in Hlen.
  - intros (q & Hq). by vm_compute in Hq.
Qed.

(** ** Cycle strings: the source against the specification *)

Lemma find_sub_char (c : Z) (s : jsstring) :
  find_sub [c] s =
    if bool_decide (c ∈ s) then Some (length (before c s)) else None.
Proof.
  induction s as [|u s IH].
  - case_bool_decide; [set_solver | done].
  - cbn [find_sub is_prefix before]. rewrite IH.
    destruct (decide (u = c)) as [->|Hne].
    + rewrite (bool_decide_eq_true_2 (c = c)) by done.
      by rewrite (bool_decide_eq_true_2 (c ∈ c :: s)) by (by left).
    + rewrite (bool_decide_eq_false_2 (c = u)) by done.
      rewrite (bool_decide_eq_false_2 (u = c)) by done. cbn [andb].
      destruct (decide (c ∈ s)) as [Hin|Hin].
      * rewrite (bool_decide_eq_true_2 (c ∈ s)) by done.
        by rewrite (bool_decide_eq_true_2 (c ∈ u :: s)) by (by right).
      * rewrite (bool_decide_eq_false_2 (c ∈ s)) by done.
        rewrite (bool_decide_eq_false_2 (c ∈ u :: s)); [done|].
        intros [?|?]%elem_of_cons; [congruence | done].
Qed.

Lemma take_before (c : Z) (s : jsstring) :
  take (length (before c s)) s = before c s.
Proof.
  induction s as [|u s IH]; [done|]. simpl.
  case_bool_decide; simpl; [done | by rewrite IH].
Qed.

Lemma length_before (c : Z) (s : jsstring) :
  c ∈ s → (length (before c s) < length s)%nat.
Proof.
  induction s as [|u s IH]; [set_solver|]. intros Hin. simpl.
  case_bool_decide; simpl; [lia|].
  apply elem_of_cons in Hin as [?|Hin]; [congruence|]. specialize (IH Hin). lia.
Qed.

Lemma lookup_before (c : Z) (s : jsstring) :
  c ∈ s → s !! length (before c s) = Some c.
Proof.
  induction s as [|u s IH]; [set_solver|]. intros Hin. simpl.
  case_bool_decide as Hu; simpl; [by subst|].
  apply elem_of_cons in Hin as [?|Hin]; [congruence | by apply IH].
Qed.

(** The next ['('] at or after position [k]. *)
Lemma groups_from_next (s : jsstring) (m k : nat) :
  (k + m = length s)%nat →
  match indexOf s [40] k with
  | None => groups_from s k m = []
  | Some i =>
      (k ≤ i < length s)%nat ∧ s !! i = Some 40 ∧
      groups_from s k m = groups_from s i (length s - i)
  end.
Proof.
  revert k. induction m as [|m IH]; intros k Hk.
  - unfold indexOf. rewrite drop_ge by lia. done.
  - destruct (lookup_lt_is_Some_2 s k) as [u Hu]; [lia|].
    unfold indexOf. rewrite (drop_S _ _ _ Hu).
    destruct (decide (u = 40)) as [->|Hne].
    + simpl. rewrite Nat.add_0_r. split; [lia|]. split; [done|].
      by replace (length s - k)%nat with (S m) by lia.
    + cbn [find_sub is_prefix]. rewrite bool_decide_eq_false_2 by done.
      cbn [andb]. specialize (IH (S k) ltac:(lia)). unfold indexOf in IH.
      assert (groups_from s k (S m) = groups_from s (S k) m) as ->.
      { unfold groups_from. simpl. unfold group_at at 1.
        rewrite Hu, bool_decide_eq_false_2; [done | congruence]. }
      destruct (find_sub [40] (drop (S k) s)) as [x|]; simpl in *; [|done].
      replace (k + S x)%nat with (S (k + x)) by lia.
      destruct IH as (? & ? & ?). split; [lia | done].
Qed.

Lemma splitCycles_loop_spec (fuel : nat) (s : jsstring) (i : option nat)
    (result : list jsstring) :
  match i with
  | Some i => s !! i = Some 40 ∧ (length s - i < fuel)%nat
  | None => True
  end →
  splitCycles_loop fuel s i result =
    result ++ filter (λ g, 2 ≤ length g)%nat
                (match i with
                 | Some i => groups_from s i (length s - i)
                 | None => []
                 end).
Proof.
  revert i result. induction fuel as [|fuel IH]; intros [i|] result Hi;
    try (simpl; by rewrite ?app_nil_r); [lia|].
  destruct Hi as [Hi Hfuel]. pose proof (lookup_lt_Some _ _ _ Hi) as Hlt.
  cbn [splitCycles_loop]. change (units ")") with [41]. change (units "(") with [40].
  replace (length s - i)%nat with (S (length s - S i)) by lia.
  unfold groups_from at 1. cbn [seq omap list_omap].
  fold (groups_from s (S i) (length s - S i)).
  pose proof (groups_from_next s (length s - S i) (S i) ltac:(lia)) as Hnext.
  replace (i + 1)%nat with (S i) by lia.
  assert (indexOf s [41] i = (λ k, S (i + k)) <$> find_sub [41] (drop (S i) s)) as ->.
  { unfold indexOf. rewrite (drop_S _ _ _ Hi). cbn [find_sub is_prefix].
    rewrite bool_decide_eq_false_2 by done. cbn [andb].
    destruct (find_sub [41] (drop (S i) s)); simpl; [f_equal; lia | done]. }
  rewrite find_sub_char. unfold group_at at 1.
  rewrite (bool_decide_eq_true_2 _ Hi).
  rewrite IH.
  2:{ destruct (indexOf s [40] (S i)) as [i'|]; [|done].
      destruct Hnext as (? & ? & _). split; [done | lia]. }
  assert (match indexOf s [40] (S i) with
          | Some i0 => groups_from s i0 (length s - i0)
          | None => []
          end = groups_from s (S i) (length s - S i)) as ->.
  { destruct (indexOf s [40] (S i)); [|done]. by destruct Hnext as (_ & _ & ->). }
  destruct (bool_decide (41 ∈ drop (S i) s)); simpl.
  - rewrite filter_cons. unfold substring.
    replace (S (i + length (before 41 (drop (S i) s))) - S i)%nat
      with (length (before 41 (drop (S i) s))) by lia.
    rewrite take_before.
    destruct (decide (2 ≤ length (before 41 (drop (S i) s)))%nat).
    + rewrite !bool_decide_eq_true_2 by lia. simpl. by rewrite <- app_assoc.
    + by rewrite (bool_decide_eq_false_2 (i + 2 < _)%nat) by lia.
  - done.
Qed.

Lemma splitCycles_spec (s : jsstring) : splitCycles s = spec_groups s.
Proof.
  unfold splitCycles, spec_groups. change (units "(") with [40].
  pose proof (groups_from_next s (length s) 0 ltac:(lia)) as Hnext.
  rewrite splitCycles_loop_spec.
  - destruct (indexOf s [40] 0); simpl; [|by rewrite Hnext].
    by destruct Hnext as (_ & _ & ->).
  - destruct (indexOf s [40] 0); [|done].
    destruct Hnext as (? & ? & _). split; [done | lia].
Qed.

Lemma follow_cycle_char (g : jsstring) (u : Z) :
  follow_cycle g (Some [u]) = Some [next_in_cycle g u].
Proof.
  unfold follow_cycle, next_in_cycle, indexOf, search_string. simpl default.
  rewrite drop_0, find_sub_char.
  destruct (decide (u ∈ g)) as [Hin|Hin].
  2:{ by rewrite !(bool_decide_eq_false_2 (u ∈ g)) by done. }
  rewrite !(bool_decide_eq_true_2 (u ∈ g)) by done. simpl.
  pose proof (length_before u g Hin) as Hlt. unfold char_at.
  case_bool_decide as Hk.
  - rewrite Nat.mod_small by lia. rewrite Nat.add_1_r.
    destruct (lookup_lt_is_Some_2 g (S (length (before u g)))) as [x Hx];
      [lia|]. by rewrite Hx.
  - replace (S (length (before u g))) with (length g) by lia.
    rewrite Nat.Div0.mod_same.
    destruct (lookup_lt_is_Some_2 g 0) as [x Hx]; [lia|]. by rewrite Hx.
Qed.

Lemma followCycles_loop_char (k : nat) (cycles : list jsstring) (u : Z) :
  (k ≤ length cycles)%nat →
  followCycles_loop k cycles (Some [u]) =
    Some [foldl (λ u g, next_in_cycle g u) u (reverse (take k cycles))].
Proof.
  revert u. induction k as [|k IH]; intros u Hk; [done|].
  destruct (lookup_lt_is_Some_2 cycles k) as [g Hg]; [lia|].
  cbn [followCycles_loop]. rewrite Hg. simpl default.
  rewrite follow_cycle_char, IH by lia.
  by rewrite (take_S_r _ _ _ Hg), reverse_snoc.
Qed.

Lemma fromCycleString_entry_spec (splits : list jsstring) (i : Z) :
  0 ≤ i ≤ MAX_ALLOWED_PERMUTATION_INDEX →
  fromCycleString_entry splits i = Normal (spec_image splits i).
Proof.
  intros Hi. unfold fromCycleString_entry, followCycles, spec_image.
  rewrite getChar_in_range, followCycles_loop_char by done.
  by rewrite firstn_all.
Qed.

Lemma fromCycleString_array_spec (splits : list jsstring) (idxs : list Z) :
  Forall (λ i, 0 ≤ i ≤ MAX_ALLOWED_PERMUTATION_INDEX) idxs →
  fromCycleString_array splits idxs = Normal (spec_image splits <$> idxs).
Proof.
  induction 1 as [|i idxs Hi _ IH]; [done|].
  cbn [fromCycleString_array]. by rewrite fromCycleString_entry_spec, IH.
Qed.

Lemma elem_of_decoded (g : jsstring) (z : Z) :
  z ∈ decoded g ↔ ∃ u, u ∈ g ∧ parseChar [u] = Num z.
Proof.
  unfold decoded. rewrite list_elem_of_omap. split.
  - intros (u & Hu & Hz). exists u. split; [done|].
    by destruct (parseChar [u]) as [|z']; simplify_eq/=.
  - intros (u & Hu & Hz). exists u. split; [done|]. by rewrite Hz.
Qed.

Lemma foldl_max_update_decoded (g : jsstring) (a : Z) :
  foldl (λ highest u, max_update (parseChar [u]) highest) a g
    = foldl Z.max a (decoded g).
Proof.
  revert a. induction g as [|u g IH]; intros a; [done|].
  unfold decoded. cbn [foldl omap list_omap]. rewrite IH.
  destruct (parseChar [u]) as [|z]; simpl; [done|].
  by rewrite max_update_Num.
Qed.

Lemma getHighestChar_decoded (cycles : list jsstring) :
  getHighestChar cycles = foldl Z.max 0 (concat (decoded <$> cycles)).
Proof.
  unfold getHighestChar. generalize 0.
  induction cycles as [|g cycles IH]; intros a; [done|].
  cbn [foldl]. rewrite IH, foldl_max_update_decoded, fmap_cons.
  change (concat (?x :: ?l)) with (x ++ concat l). by rewrite foldl_app.
Qed.

Lemma elem_of_concat {A} (x : A) (ls : list (list A)) :
  x ∈ concat ls ↔ ∃ l, x ∈ l ∧ l ∈ ls.
Proof.
  induction ls as [|k ls IH]; simpl.
  - split; [by intros ?%elem_of_nil | by intros (l & _ & ?%elem_of_nil)].
  - rewrite elem_of_app, IH. split.
    + intros [Hx | (l & Hx & Hl)]; [exists k | exists l];
        (split; [done|]); [by left | by right].
    + intros (l & Hx & [-> | Hl]%elem_of_cons); [by left | right; by exists l].
Qed.

Lemma getHighestChar_is_highest (cycles : list jsstring) :
  is_highest cycles (getHighestChar cycles).
Proof.
  rewrite getHighestChar_decoded.
  destruct (foldl_max_spec (concat (decoded <$> cycles)) 0) as (_ & Hall & Hin).
  rewrite Forall_forall in Hall. split.
  - intros g u z Hg Hu Hz. apply Hall. apply elem_of_concat.
    exists (decoded g). split; [|by apply list_elem_of_fmap_2].
    apply elem_of_decoded. by exists u.
  - destruct Hin as [Heq | Hin]; [by left | right].
    apply elem_of_concat in Hin as (l & Hm & Hl).
    apply list_elem_of_fmap in Hl as (g & -> & Hg).
    apply elem_of_decoded in Hm as (u & Hu & Hz). by exists g, u.
Qed.

Lemma getHighestChar_bounds (cycles : list jsstring) :
  0 ≤ getHighestChar cycles ≤ MAX_ALLOWED_PERMUTATION_INDEX.
Proof.
  destruct (getHighestChar_is_highest cycles) as [_ [-> | (g & u & _ & _ & Hz)]].
  - unfold MAX_ALLOWED_PERMUTATION_INDEX. lia.
  - by apply parseChar_bounds in Hz.
Qed.

(** C4. [fromCycleString(s, n)] extracts the parenthesized groups of [s]
    that hold at least two characters; when [n] is not supplied it is the
    highest integer decoded from a character of an extracted group; the
    array it hands to the constructor maps every index [i] of [0, n] to the
    image of [i] under the extracted cycles applied in the reverse order of
    their appearance, so a Permutation that is built has length [n + 1] and
    these images. A supplied [n] is an index of the supported range. *)
Theorem fromCycleString_spec (s : jsstring) (n : value) :
  (∀ z, n = Num z → 0 ≤ z ≤ MAX_ALLOWED_PERMUTATION_INDEX) →
  ∃ m : Z,
    splitCycles s = spec_groups s ∧
    match n with
    | Num z => m = z
    | Undefined => is_highest (spec_groups s) m
    end ∧
    fromCycleString s n =
      Normal (new_Permutation
                (spec_image (spec_groups s) <$> counter 0 (Z.to_nat (m + 1)))) ∧
    ∀ p, fromCycleString s n = Normal (Some p) →
         Z.of_nat (plength p) = m + 1 ∧
         ∀ i, 0 ≤ i ≤ m → at_ p i = spec_image (spec_groups s) i.
Proof.
  intros Hn.
  set (m := match n with Num z => z | Undefined => getHighestChar (splitCycles s) end).
  assert (0 ≤ m ≤ MAX_ALLOWED_PERMUTATION_INDEX) as Hm.
  { subst m. destruct n as [|z]; [apply getHighestChar_bounds | by apply Hn]. }
  assert (fromCycleString s n =
          Normal (new_Permutation
                    (spec_image (spec_groups s) <$> counter 0 (Z.to_nat (m + 1)))))
    as Heq.
  { unfold fromCycleString. fold m. rewrite fromCycleString_array_spec.
    - by rewrite splitCycles_spec.
    - apply Forall_forall. intros i Hi%elem_of_counter. lia. }
  exists m. split; [apply splitCycles_spec|]. split; [|split; [done|]].
  - subst m. destruct n; [|done].
    rewrite <- splitCycles_spec. apply getHighestChar_is_highest.
  - intros p Hp. rewrite Heq in Hp. injection Hp as Hp.
    apply new_Permutation_Some in Hp as (-> & _). unfold plength. simpl.
    rewrite length_fmap, length_counter. split; [lia|]. intros i Hi.
    replace i with (Z.of_nat (Z.to_nat i)) at 1 by lia. apply at_lookup. simpl.
    rewrite list_lookup_fmap, lookup_counter by lia. simpl.
    do 2 f_equal. lia.
Qed.

Lemma fromCycleString_spec_witness :
  splitCycles (units "(01)(23)") = spec_groups (units "(01)(23)") ∧
  fromCycleString (units "(01)(23)") (Num 3)
    = Normal (Some (mkPermutation [Num 1; Num 0; Num 3; Num 2])) ∧
  Z.of_nat (plength (mkPermutation [Num 1; Num 0; Num 3; Num 2])) = 3 + 1 ∧
  at_ (mkPermutation [Num 1; Num 0; Num 3; Num 2]) 2
    = spec_image (spec_groups (units "(01)(23)")) 2.
Proof.
  destruct (fromCycleString_spec (units "(01)(23)") (Num 3))
    as (m & Hs & -> & Heq & Hp).
  - intros z [= <-]. unfold MAX_ALLOWED_PERMUTATION_INDEX. lia.
  - destruct (Hp (mkPermutation [Num 1; Num 0; Num 3; Num 2]) eq_refl)
      as [Hlen Hat].
    split; [exact Hs|]. split; [reflexivity|]. split; [exact Hlen|].
    apply Hat. lia.
Defined.

(** ** Cycle decomposition of a permutation of an initial segment *)

Lemma orbit_S (p : Permutation) (i : Z) (m : nat) :
  orbit p i (S m) = orbit p i m ++ [iter_get p i m].
Proof. unfold orbit. by rewrite seq_S, fmap_app. Qed.

Lemma length_orbit (p : Permutation) (i : Z) (m : nat) :
  length (orbit p i m) = m.
Proof. unfold orbit. by rewrite length_fmap, length_seq. Qed.

Lemma lookup_orbit (p : Permutation) (i : Z) (m k : nat) :
  (k < m)%nat → orbit p i m !! k = Some (iter_get p i k).
Proof.
  intros Hk. unfold orbit. by rewrite list_lookup_fmap, lookup_seq_lt.
Qed.

Lemma elem_of_orbit (p : Permutation) (i : Z) (m : nat) (v : value) :
  v ∈ orbit p i m ↔ ∃ k, (k < m)%nat ∧ v = iter_get p i k.
Proof.
  unfold orbit. rewrite list_elem_of_fmap. split.
  - intros (k & -> & Hk%elem_of_seq). exists k. split; [lia | done].
  - intros (k & Hk & ->). exists k. split; [done|]. apply elem_of_seq. lia.
Qed.

Section cycles.
Context (zs : list Z) (Hseg : segment_perm zs).

Let p : Permutation := mkPermutation (Num <$> zs).
Let n : Z := Z.of_nat (length zs).

Lemma get_segment (z : Z) :
  0 ≤ z < n → ∃ z', get p (Num z) = Num z' ∧ 0 ≤ z' < n.
Proof.
  intros Hz. destruct (lookup_lt_is_Some_2 zs (Z.to_nat z)) as [z' Hz'];
    [subst n; lia|].
  exists z'. split.
  - replace z with (Z.of_nat (Z.to_nat z)) by lia.
    by apply segment_perm_get.
  - destruct Hseg as [_ Hr]. rewrite Forall_forall in Hr.
    apply list_elem_of_lookup_2 in Hz'. specialize (Hr _ Hz'). subst n. lia.
Qed.

Lemma iter_get_segment (i : Z) (k : nat) :
  0 ≤ i < n → ∃ z, iter_get p i k = Num z ∧ 0 ≤ z < n.
Proof.
  intros Hi. induction k as [|k (z & Hz & Hr)]; [by exists i|].
  unfold iter_get in *. simpl. rewrite Hz. by apply get_segment.
Qed.

Lemma get_segment_inj (v w : value) (i j : Z) (k l : nat) :
  0 ≤ i < n → 0 ≤ j < n →
  v = iter_get p i k → w = iter_get p j l → get p v = get p w → v = w.
Proof.
  intros Hi Hj -> -> Heq.
  destruct (iter_get_segment i k Hi) as (a & Ha & Hra).
  destruct (iter_get_segment j l Hj) as (b & Hb & Hrb).
  rewrite Ha, Hb in *. f_equal.
  by apply (segment_perm_inj zs a b Hseg Hra Hrb).
Qed.

(** A term of the orbit of [i] that is a fixed point makes [i] one. *)
Lemma iter_get_fixed (i : Z) (k : nat) :
  0 ≤ i < n → get p (iter_get p i k) = iter_get p i k →
  get p (Num i) = Num i.
Proof.
  intros Hi. induction k as [|k IH]; [done|]. intros Heq. apply IH.
  by apply (get_segment_inj _ _ i i (S k) k Hi Hi).
Qed.

Lemma orbit_length_le (i : Z) (m : nat) :
  0 ≤ i < n → NoDup (orbit p i m) → (Z.of_nat m ≤ n)%Z.
Proof.
  intros Hi Hnd.
  assert (orbit p i m ⊆+ Num <$> counter 0 (length zs)) as Hsub.
  { apply NoDup_submseteq; [done|]. intros v (k & _ & ->)%elem_of_orbit.
    destruct (iter_get_segment i k Hi) as (z & -> & Hz).
    apply list_elem_of_fmap_2, elem_of_counter. subst n. lia. }
  apply submseteq_length in Hsub.
  rewrite length_orbit, length_fmap, length_counter in Hsub. subst n. lia.
Qed.

(** The inner loop, entered after [m] terms of the orbit of [i], returns:
    it stops at the first return to [i], having recorded the orbit. *)
Lemma cycle_walk_orbit (fuel : nat) (i : Z) (m : nat) (used : gset value) :
  0 ≤ i < n → (0 < m)%nat → NoDup (orbit p i m) →
  (∀ v, v ∈ orbit p i m → v ∈ used) →
  (n < Z.of_nat m + Z.of_nat fuel)%Z →
  ∃ m' used',
    cycle_walk fuel p i (iter_get p i m) (orbit p i m) used
      = Some (orbit p i m', used') ∧
    (m ≤ m')%nat ∧ iter_get p i m' = Num i ∧ NoDup (orbit p i m') ∧
    ∀ v, v ∈ used' ↔ v ∈ orbit p i m' ∨ v ∈ used.
Proof.
  intros Hi. revert m used.
  induction fuel as [|fuel IH]; intros m used Hm Hnd Hused Hfuel.
  { pose proof (orbit_length_le i m Hi Hnd). lia. }
  cbn [cycle_walk]. unfold loose_eqb. case_bool_decide as Hj.
  - exists m, used. split; [done|]. split; [lia|]. split; [done|].
    split; [done|]. intros v. split; [by right | intros [?|?]; auto].
  - assert (iter_get p i m ∉ orbit p i m) as Hfresh.
    { intros (k & Hk & Heq)%elem_of_orbit. destruct k as [|k]; [done|].
      destruct m as [|m]; [lia|].
      assert (iter_get p i m = iter_get p i k) as Hprev
        by (by apply (get_segment_inj _ _ i i m k Hi Hi)).
      pose proof (NoDup_lookup _ m k (iter_get p i m) Hnd) as Hmk.
      rewrite !lookup_orbit in Hmk by lia.
      specialize (Hmk eq_refl (f_equal Some (eq_sym Hprev))). lia. }
    destruct (IH (S m) ({[iter_get p i m]} ∪ used)) as (m' & used' & Hw & Hle & Hret & Hnd' & Hu').
    + lia.
    + rewrite orbit_S. apply NoDup_app. split; [done|]. split.
      * intros v Hv ?%list_elem_of_singleton. by subst.
      * apply NoDup_singleton.
    + intros v. rewrite orbit_S, elem_of_app, list_elem_of_singleton.
      intros [Hv | ->]; [|set_solver]. apply Hused in Hv. set_solver.
    + lia.
    + exists m', used'. rewrite orbit_S in Hw. split; [done|].
      split; [lia|]. split; [done|]. split; [done|].
      intros v. rewrite Hu'. split; [|set_solver].
      intros [?|[->%elem_of_singleton|?]%elem_of_union]; auto.
      left. apply elem_of_orbit. exists m. split; [lia | done].
Qed.
End cycles.

Lemma at_get (p : Permutation) (i : Z) : at_ p i = get p (Num i).
Proof. unfold at_, PERMUTATION_INDEX. by rewrite Z.add_0_r. Qed.

Section decomposition.
Context (zs : list Z) (Hseg : segment_perm zs).

Let p : Permutation := mkPermutation (Num <$> zs).
Let n : Z := Z.of_nat (length zs).

Local Abbreviation inv := (loop_inv p n).

Lemma loop_inv_init : inv 0 ∅ [].
Proof.
  split; simpl.
  - set_solver.
  - constructor.
  - by intros c ?%elem_of_nil.
  - lia.
  - intros k1 k2 c1 c2 i1 i2 _ H. by rewrite lookup_nil in H.
Qed.

(** The recorded entries are closed under the permutation. *)
Lemma loop_inv_closed a used cs v :
  inv a used cs → v ∈ used → get p v ∈ used.
Proof.
  intros Hinv Hv. apply (inv_used _ _ _ _ _ Hinv) in Hv.
  apply (inv_used _ _ _ _ _ Hinv).
  apply elem_of_concat in Hv as (c & Hv & Hc). apply elem_of_concat.
  exists c. split; [|done].
  destruct (inv_cycles _ _ _ _ _ Hinv c Hc) as (i & m & -> & _ & _ & Hm & Hret & _).
  apply elem_of_orbit in Hv as (k & Hk & ->). apply elem_of_orbit.
  destruct (decide (S k < m)%nat).
  - by exists (S k).
  - exists 0%nat. split; [done|]. replace k with (pred m) by lia.
    change (get p (iter_get p i (pred m))) with (iter_get p i (S (pred m))).
    replace (S (pred m)) with m by lia. done.
Qed.

Lemma loop_inv_closed_iter a used cs i (k d : nat) :
  inv a used cs → iter_get p i k ∈ used → iter_get p i (d + k) ∈ used.
Proof.
  intros Hinv Hk. induction d as [|d IH]; [done|].
  by apply (loop_inv_closed a used cs).
Qed.

(** A turn of the outer loop that records nothing. *)
Lemma loop_inv_skip a used cs :
  0 ≤ a → inv a used cs →
  (get p (Num a) = Num a ∨ Num a ∈ used) →
  inv (a + 1) used cs.
Proof.
  intros Ha Hinv Hskip. split; try apply Hinv.
  - intros c Hc.
    destruct (inv_cycles _ _ _ _ _ Hinv c Hc) as (i & m & ? & ? & ?).
    exists i, m. split; [done|]. split; [lia | done].
  - intros z Hz Hmoved. destruct (decide (z = a)) as [->|].
    + by destruct Hskip.
    + apply (inv_cover _ _ _ _ _ Hinv); [lia | done].
Qed.

(** A turn of the outer loop that records the cycle of [a]. *)
Lemma loop_inv_record a used cs (m : nat) used' :
  0 ≤ a < n → inv a used cs →
  get p (Num a) ≠ Num a → Num a ∉ used →
  (0 < m)%nat → iter_get p a m = Num a → NoDup (orbit p a m) →
  (∀ v, v ∈ used' ↔ v ∈ orbit p a m ∨ v ∈ used) →
  inv (a + 1) used' (cs ++ [orbit p a m]).
Proof.
  intros Ha Hinv Hmoved Hnew Hm Hret Hnd Hused'.
  assert (∀ v, v ∈ orbit p a m → v ∉ used) as Hdisj.
  { intros v (k & Hk & ->)%elem_of_orbit Hv. apply Hnew.
    rewrite <- Hret. replace m with ((m - k) + k)%nat by lia.
    by apply (loop_inv_closed_iter a used cs). }
  assert (concat (cs ++ [orbit p a m]) = concat cs ++ orbit p a m) as Hcat
    by (by rewrite concat_app; simpl; rewrite app_nil_r).
  split.
  - intros v. rewrite Hused', Hcat, elem_of_app, (inv_used _ _ _ _ _ Hinv). tauto.
  - rewrite Hcat. apply NoDup_app. split; [apply Hinv|]. split; [|done].
    intros v Hv Hv'. apply (Hdisj v Hv'). by apply (inv_used _ _ _ _ _ Hinv).
  - intros c [Hc | ->%list_elem_of_singleton]%elem_of_app.
    + destruct (inv_cycles _ _ _ _ _ Hinv c Hc) as (i & m' & ? & ? & ?).
      exists i, m'. split; [done|]. split; [lia | done].
    + exists a, m. split; [done|]. split; [lia|]. split; [lia|].
      split; [done|]. split; [done|]. split; [done|].
      intros z Hz. destruct (decide (a ≤ z)) as [|Hlt]; [done|].
      exfalso. apply (Hdisj _ Hz).
      pose proof Hz as (k & Hk & Hzk)%elem_of_orbit.
      destruct (iter_get_segment zs Hseg a k Ha) as (z' & Hz' & Hr).
      fold p in Hz'. rewrite <- Hzk in Hz'. injection Hz' as <-.
      apply (inv_cover _ _ _ _ _ Hinv); [lia|]. rewrite Hzk. intros Hfix.
      by apply Hmoved, (iter_get_fixed zs Hseg a k Ha).
  - intros z Hz Hzmoved. apply Hused'. destruct (decide (z = a)) as [->|].
    + left. apply elem_of_orbit. by exists 0%nat.
    + right. apply (inv_cover _ _ _ _ _ Hinv); [lia | done].
  - intros k1 k2 c1 c2 i1 i2 Hk H1 H2 Hh1 Hh2.
    pose proof (lookup_lt_Some _ _ _ H2) as Hlen.
    rewrite length_app in Hlen. simpl in Hlen.
    destruct (decide (k2 < length cs)%nat).
    + rewrite lookup_app_l in H1, H2 by lia.
      by apply (inv_sorted _ _ _ _ _ Hinv k1 k2 c1 c2).
    + rewrite lookup_app_l in H1 by lia.
      rewrite lookup_app_r in H2 by lia.
      replace (k2 - length cs)%nat with 0%nat in H2 by lia.
      injection H2 as <-. rewrite lookup_orbit in Hh2 by done.
      injection Hh2 as <-.
      destruct (inv_cycles _ _ _ _ _ Hinv c1) as (i & m' & -> & ? & ? & ? & _).
      { by eapply list_elem_of_lookup_2. }
      rewrite lookup_orbit in Hh1 by done. injection Hh1 as <-. lia.
Qed.

(** The outer loop returns, and the invariant holds at its end. *)
Lemma getCycles_loop_inv (fuel k : nat) a used cs :
  0 ≤ a → a + Z.of_nat k = n → (n ≤ Z.of_nat fuel)%Z →
  inv a used cs →
  ∃ cs' used',
    getCycles_loop fuel p (counter a k) used cs = Some cs' ∧
    inv n used' cs'.
Proof.
  revert a used cs. induction k as [|k IH]; intros a used cs Ha Hk Hfuel Hinv.
  { exists cs, used. split; [done|]. assert (a = n) as Han by lia.
    by subst a. }
  rewrite counter_S. cbn [getCycles_loop]. unfold loose_eqb.
  destruct (decide (get p (Num a) = Num a)) as [Hfix | Hmoved].
  { rewrite (bool_decide_eq_true_2 _ Hfix). cbn [negb andb].
    apply IH; [lia | lia | done |]. apply loop_inv_skip; auto. }
  rewrite (bool_decide_eq_false_2 _ Hmoved). cbn [negb andb].
  case_bool_decide as Hnew.
  2:{ apply IH; [lia | lia | done |]. apply loop_inv_skip; [done..|].
      right. by destruct (decide (Num a ∈ used)). }
  destruct (cycle_walk_orbit zs Hseg fuel a 1 ({[Num a]} ∪ used))
    as (m & used' & Hw & Hm & Hret & Hnd & Hused'); [lia | lia | | | lia |].
  { apply NoDup_singleton. }
  { intros v ->%list_elem_of_singleton. set_solver. }
  fold p in Hw, Hret, Hnd, Hused'.
  change (iter_get p a 1) with (get p (Num a)) in Hw.
  change (orbit p a 1) with [Num a] in Hw. rewrite Hw.
  apply IH; [lia | lia | done |].
  apply (loop_inv_record a used cs m used'); [lia | done.. | lia | done | done |].
  intros v. rewrite Hused'. split; [|set_solver].
  intros [?|[->%elem_of_singleton|?]%elem_of_union]; auto.
  left. apply elem_of_orbit. exists 0%nat. split; [lia | done].
Qed.

Lemma loop_inv_decomposition used cs :
  inv n used cs → cycle_decomposition p cs.
Proof.
  intros Hinv.
  assert (∀ c, c ∈ cs → ∃ i m, c = orbit p i m ∧ 0 ≤ i < n ∧ (0 < m)%nat ∧
            iter_get p i m = Num i ∧ get p (Num i) ≠ Num i ∧
            ∀ z, Num z ∈ c → i ≤ z) as Hcs.
  { intros c Hc.
    destruct (inv_cycles _ _ _ _ _ Hinv c Hc) as (i & m & ? & ? & ? & ?).
    exists i, m. split; [done|]. split; [lia | done]. }
  assert (Z.of_nat (plength p) = n) as Hlen
    by (unfold plength; simpl; by rewrite length_fmap).
  split.
  - intros c i Hc Hi. rewrite at_get.
    destruct (Hcs c Hc) as (j & m & -> & Hj & _ & _ & Hmoved & _).
    apply elem_of_orbit in Hi as (k & _ & Hi). rewrite Hi. intros Hfix.
    by apply Hmoved, (iter_get_fixed zs Hseg j k Hj).
  - intros i Hi Hmoved. rewrite at_get in Hmoved.
    assert (Num i ∈ concat cs) as (c & ? & ?)%elem_of_concat; [|by exists c].
    apply (inv_used _ _ _ _ _ Hinv), (inv_cover _ _ _ _ _ Hinv); [lia | done].
  - apply Hinv.
  - intros c v Hc Hv. destruct (Hcs c Hc) as (j & m & -> & Hj & _).
    apply elem_of_orbit in Hv as (k & _ & ->).
    destruct (iter_get_segment zs Hseg j k Hj) as (z & Hz & Hr).
    exists z. split; [done | lia].
  - intros c k v Hc Hk. destruct (Hcs c Hc) as (j & m & -> & _ & Hm & Hret & _).
    pose proof (lookup_lt_Some _ _ _ Hk) as Hlt.
    rewrite length_orbit in Hlt |- *. rewrite lookup_orbit in Hk by done.
    injection Hk as <-. destruct (decide (S k < m)%nat).
    + rewrite Nat.mod_small by done. by rewrite lookup_orbit by done.
    + replace (S k) with m by lia. rewrite Nat.Div0.mod_same.
      rewrite lookup_orbit by done. f_equal.
      change (iter_get p j 0) with (Num j). rewrite <- Hret.
      by replace m with (S k) by lia.
  - intros c Hc. destruct (Hcs c Hc) as (j & m & -> & _ & Hm & _ & _ & Hmin).
    exists j. split; [by rewrite lookup_orbit | done].
  - apply Hinv.
Qed.
End decomposition.

(** On a built Permutation whose stored values are all below its length,
    every inner loop returns within [plength p] turns, and the cycles are
    the decomposition. *)
Lemma getCycles_segment (p : Permutation) (fuel : nat) :
  built p → below_length p → (plength p ≤ fuel)%nat →
  ∃ cs, getCycles fuel p = Some cs ∧ cycle_decomposition p cs.
Proof.
  intros Hb Hlt Hfuel.
  destruct (segment_perm_values p Hb Hlt) as (zs & Hzs & Hseg).
  destruct p as [l]. simpl in Hzs. subst l.
  unfold plength in Hfuel. simpl in Hfuel. rewrite length_fmap in Hfuel.
  destruct (getCycles_loop_inv zs Hseg fuel (length zs) 0 ∅ [])
    as (cs & used & Hcs & Hinv); [lia | lia | lia | by apply loop_inv_init |].
  exists cs. split.
  - unfold getCycles, plength. simpl. by rewrite length_fmap.
  - by apply (loop_inv_decomposition zs Hseg used).
Qed.

Example getCycles_120 :
  getCycles 3 (mkPermutation [Num 1; Num 2; Num 0])
    = Some [[Num 0; Num 1; Num 2]].
Proof. by vm_compute. Qed.

Lemma getCycles_loop_fixed (fuel : nat) (p : Permutation) (idxs : list Z)
    (used : gset value) (cs : list (list value)) :
  Forall (λ i, get p (Num i) = Num i) idxs →
  getCycles_loop fuel p idxs used cs = Some cs.
Proof.
  induction 1 as [|i idxs Hi _ IH]; [done|].
  cbn [getCycles_loop]. unfold loose_eqb.
  by rewrite (bool_decide_eq_true_2 _ Hi).
Qed.

(** The identity has no cycle, and renders as the empty string. *)
Lemma getCycles_identity (n fuel : nat) (p : Permutation) :
  getIdentity n = Some p →
  getCycles fuel p = Some [] ∧ toCycleString fuel p = Some [].
Proof.
  unfold getIdentity, fromFunction. intros (-> & _)%new_Permutation_Some.
  assert (getCycles fuel
            (mkPermutation ((λ i, Num (i + PERMUTATION_INDEX)) <$> counter 0 n))
          = Some []) as Hc.
  { unfold getCycles. apply getCycles_loop_fixed, Forall_forall.
    intros i Hi. unfold plength in Hi. simpl in Hi.
    rewrite length_fmap, length_counter in Hi.
    apply elem_of_counter in Hi.
    replace i with (Z.of_nat (Z.to_nat i)) by lia. apply get_lookup. simpl.
    rewrite list_lookup_fmap, lookup_counter by lia. simpl.
    unfold PERMUTATION_INDEX. do 2 f_equal. lia. }
  split; [done|]. unfold toCycleString. by rewrite Hc.
Qed.

(** In a decomposition an index lies in one cycle only. *)
Lemma cycle_decomposition_one_cycle (p : Permutation) (cs : list (list value))
    (k1 k2 : nat) (c1 c2 : list value) (v : value) :
  cycle_decomposition p cs →
  cs !! k1 = Some c1 → cs !! k2 = Some c2 → v ∈ c1 → v ∈ c2 → k1 = k2.
Proof.
  intros Hcd. pose proof (cd_disjoint _ _ Hcd) as Hnd. clear Hcd.
  revert k1 k2. induction cs as [|c cs IH]; intros k1 k2 H1 H2 Hv1 Hv2.
  { by rewrite lookup_nil in H1. }
  simpl in Hnd. apply NoDup_app in Hnd as (_ & Hdisj & Hnd).
  destruct k1 as [|k1], k2 as [|k2]; simpl in H1, H2.
  - done.
  - injection H1 as ->. exfalso. apply (Hdisj v Hv1), elem_of_concat.
    exists c2. split; [done|]. by eapply list_elem_of_lookup_2.
  - injection H2 as ->. exfalso. apply (Hdisj v Hv2), elem_of_concat.
    exists c1. split; [done|]. by eapply list_elem_of_lookup_2.
  - f_equal. by apply IH.
Qed.

(** C2, as amended. For every built Permutation whose stored values are
    all below its length, the [cycles] property has a value and it is the
    disjoint-cycle decomposition: fixed points appear in no cycle, every
    other index appears in exactly one cycle and once, each cycle starts
    from its smallest member and lists the orbit in application order, and
    the cycles are ordered by their smallest member. In particular
    [[1,2,0]] has the cycles [[[0,1,2]]] and an identity has none. *)
Theorem getCycles_decomposition (p : Permutation) (fuel : nat) :
  built p → below_length p → (plength p ≤ fuel)%nat →
  (∃ cs, getCycles fuel p = Some cs ∧ cycle_decomposition p cs) ∧
  getCycles 3 (mkPermutation [Num 1; Num 2; Num 0])
    = Some [[Num 0; Num 1; Num 2]] ∧
  (∀ n q, getIdentity n = Some q → getCycles fuel q = Some []).
Proof.
  intros Hb Hlt Hfuel. split; [by apply getCycles_segment|].
  split; [apply getCycles_120|]. intros n q Hq.
  by destruct (getCycles_identity n fuel q Hq).
Qed.

Lemma getCycles_decomposition_witness :
  (∃ cs, getCycles 3 (mkPermutation [Num 1; Num 2; Num 0]) = Some cs ∧
         cycle_decomposition (mkPermutation [Num 1; Num 2; Num 0]) cs) ∧
  getCycles 3 (mkPermutation [Num 1; Num 2; Num 0])
    = Some [[Num 0; Num 1; Num 2]] ∧
  getCycles 3 (mkPermutation [Num 0; Num 1; Num 2]) = Some [].
Proof.
  destruct (getCycles_decomposition (mkPermutation [Num 1; Num 2; Num 0]) 3)
    as (Hcs & H120 & Hid).
  - reflexivity.
  - apply below_lengthb_true. reflexivity.
  - unfold plength. simpl. lia.
  - split; [exact Hcs|]. split; [exact H120|].
    apply (Hid 3%nat (mkPermutation [Num 0; Num 1; Num 2])). reflexivity.
Defined.

(** ** Composition of permutations of an initial segment *)

Lemma compose_mismatch (this theta : Permutation) :
  plength theta ≠ plength this → compose this theta = None.
Proof. intros H. unfold compose. by rewrite bool_decide_eq_true_2. Qed.

Lemma compose_array_values (this theta : Permutation) :
  plength theta = plength this →
  compose_array this theta = get this <$> values theta.
Proof.
  intros Hlen. unfold compose_array. rewrite <- Hlen, <- (get_counter theta) at 1.
  by rewrite <- list_fmap_compose.
Qed.

(** When [this] is built and [theta] is a built Permutation of the same
    length whose values are below that length, the composite is built: it has
    the same length, it maps [i] to [this(theta(i))], its stored values are
    those of [this], and they are below its length when those of [this]
    are. Nothing is asked of the values of [this]. *)
Lemma composite_of_built (this theta : Permutation) :
  built this → built theta → below_length theta →
  plength theta = plength this →
  ∃ r, compose this theta = Some r ∧ plength r = plength this ∧
       (∀ i, 0 ≤ i < Z.of_nat (plength this) →
             at_ r i = get this (at_ theta i)) ∧
       built r ∧
       (∀ v, v ∈ values r ↔ v ∈ values this) ∧
       (below_length this → below_length r).
Proof.
  intros Hb1 Hb2 Hl2 Hlen.
  destruct (segment_perm_values theta Hb2 Hl2) as (ts & Hts & Hsegt).
  apply validatePermutationArray_true in Hb1 as [Hnd Hr].
  pose proof (compose_array_values this theta Hlen) as Harr.
  rewrite Hts, <- list_fmap_compose in Harr.
  assert (length ts = length (values this)) as Hlen'.
  { unfold plength in Hlen. by rewrite Hts, length_fmap in Hlen. }
  assert (∀ t, t ∈ ts → 0 ≤ t < Z.of_nat (length (values this))) as Hrange.
  { intros t Ht. destruct Hsegt as [_ Hf]. rewrite Forall_forall in Hf.
    specialize (Hf t Ht). lia. }
  assert (∀ t, t ∈ ts →
            ∃ v, values this !! Z.to_nat t = Some v ∧ get this (Num t) = v)
    as Hget.
  { intros t Ht. specialize (Hrange t Ht).
    destruct (lookup_lt_is_Some_2 (values this) (Z.to_nat t)) as [v Hv]; [lia|].
    exists v. split; [done|].
    replace t with (Z.of_nat (Z.to_nat t)) by lia. by apply get_lookup. }
  assert (∀ v, v ∈ compose_array this theta ↔ v ∈ values this) as Hmem.
  { intros v. rewrite Harr. split.
    - intros (t & -> & Ht)%list_elem_of_fmap.
      destruct (Hget t Ht) as (w & Hw & Hgw).
      change (get this (Num t) ∈ values this). rewrite Hgw.
      by eapply list_elem_of_lookup_2.
    - intros (k & Hk)%list_elem_of_lookup_1.
      pose proof (lookup_lt_Some _ _ _ Hk) as Hlt.
      apply list_elem_of_fmap. exists (Z.of_nat k). split.
      + change (v = get this (Num (Z.of_nat k))). symmetry.
        by apply get_lookup.
      + apply segment_perm_surj; [done | lia]. }
  assert (NoDup (compose_array this theta)) as Hndc.
  { rewrite Harr. apply NoDup_fmap_2_strong; [|apply Hsegt].
    intros a b Ha Hb Heq.
    change (get this (Num a) = get this (Num b)) in Heq.
    destruct (Hget a Ha) as (va & Hva & Hga).
    destruct (Hget b Hb) as (vb & Hvb & Hgb).
    rewrite Hga, Hgb in Heq. subst vb.
    pose proof (NoDup_lookup _ _ _ _ Hnd Hva Hvb) as Heq.
    pose proof (Hrange a Ha). pose proof (Hrange b Hb). lia. }
  assert (Forall in_range (compose_array this theta)) as Hrc.
  { rewrite Forall_forall in Hr. apply Forall_forall.
    intros v Hv. apply Hr. by apply Hmem. }
  assert (validatePermutationArray (compose_array this theta) = true) as Hval
    by (by apply validatePermutationArray_true).
  exists (mkPermutation (compose_array this theta)).
  assert (plength (mkPermutation (compose_array this theta)) = plength this)
    as Hlr.
  { unfold plength. simpl. by rewrite Harr, length_fmap. }
  split; [|split; [done|split; [|split; [done|split; [done|]]]]].
  - unfold compose, new_Permutation.
    rewrite bool_decide_eq_false_2 by (by intros []). by rewrite Hval.
  - intros i Hi. replace i with (Z.of_nat (Z.to_nat i)) at 1 by lia.
    apply at_lookup. simpl. unfold compose_array.
    rewrite list_lookup_fmap, lookup_counter by lia. rewrite at_get.
    replace (0 + Z.of_nat (Z.to_nat i)) with i by lia. done.
  - intros Hl1 v Hv. rewrite Hlr. apply Hl1. by apply Hmem.
Qed.

(** When both Permutations are built, have the same length and hold values
    below that length, the composite is built: it has the same length, it
    maps [i] to [this(theta(i))], and its values are below its length. *)
Lemma composite_built (this theta : Permutation) :
  built this → below_length this → built theta → below_length theta →
  plength theta = plength this →
  ∃ r, compose this theta = Some r ∧ plength r = plength this ∧
       (∀ i, 0 ≤ i < Z.of_nat (plength this) →
             at_ r i = get this (at_ theta i)) ∧
       built r ∧ below_length r.
Proof.
  intros Hb1 Hl1 Hb2 Hl2 Hlen.
  destruct (composite_of_built this theta Hb1 Hb2 Hl2 Hlen)
    as (r & Hr & Hlr & Hat & Hbr & _ & Hbelow).
  exists r. split; [done|]. split; [done|]. split; [done|].
  split; [done|]. by apply Hbelow.
Qed.

(** C5, as amended. [this.compose(theta)] returns no result whenever the
    lengths differ; when they are equal, both are built Permutations and the
    stored values of [theta] are all below that length, it builds a
    Permutation [r] of the same length with [r(i) = this(theta(i))] at every
    index of the domain, and [r] passes validation. Nothing is asked of the
    values of [this]: [r] stores the values of [this], rearranged, and they
    are below its length when those of [this] are. *)
Theorem compose_segment (this theta : Permutation) :
  (plength theta ≠ plength this → compose this theta = None) ∧
  (built this → built theta → below_length theta →
   plength theta = plength this →
   ∃ r, compose this theta = Some r ∧ plength r = plength this ∧
        (∀ i, 0 ≤ i < Z.of_nat (plength this) →
              at_ r i = get this (at_ theta i)) ∧
        built r ∧
        (∀ v, v ∈ values r ↔ v ∈ values this) ∧
        (below_length this → below_length r)).
Proof.
  split; [apply compose_mismatch | apply composite_of_built].
Qed.

Lemma compose_segment_witness :
  compose (mkPermutation [Num 1; Num 0]) (mkPermutation [Num 0]) = None ∧
  ∃ r, compose (mkPermutation [Num 5; Num 7])
               (mkPermutation [Num 1; Num 0]) = Some r ∧
       plength r = plength (mkPermutation [Num 5; Num 7]) ∧
       (∀ i, 0 ≤ i < Z.of_nat (plength (mkPermutation [Num 5; Num 7])) →
             at_ r i = get (mkPermutation [Num 5; Num 7])
                           (at_ (mkPermutation [Num 1; Num 0]) i)) ∧
       built r ∧
       (∀ v, v ∈ values r ↔ v ∈ values (mkPermutation [Num 5; Num 7])) ∧
       (below_length (mkPermutation [Num 5; Num 7]) → below_length r).
Proof.
  split.
  - apply (proj1 (compose_segment (mkPermutation [Num 1; Num 0])
                                  (mkPermutation [Num 0]))).
    unfold plength. simpl. lia.
  - apply (proj2 (compose_segment (mkPermutation [Num 5; Num 7])
                                  (mkPermutation [Num 1; Num 0]))).
    + reflexivity.
    + reflexivity.
    + apply below_lengthb_true. reflexivity.
    + reflexivity.
Defined.

(** ** What [equals] compares *)

Lemma equals_index_0 (this right : Permutation) :
  equals this right = true ↔ at_ this 0 = at_ right 0.
Proof.
  unfold equals, Permutation_equals, Permutation_function_length.
  change (counter 0 1) with [0]. cbn [equals_loop]. unfold loose_eqb.
  case_bool_decide; simpl; naive_solver.
Qed.

Lemma equals_refl (this : Permutation) : equals this this = true.
Proof. by apply equals_index_0. Qed.

Lemma equals_sym (this right : Permutation) :
  equals this right = equals right this.
Proof.
  destruct (equals this right) eqn:E1, (equals right this) eqn:E2; try done.
  - apply equals_index_0 in E1. symmetry in E1. apply equals_index_0 in E1.
    congruence.
  - apply equals_index_0 in E2. symmetry in E2. apply equals_index_0 in E2.
    congruence.
Qed.

(** ** What every constructed Permutation satisfies *)

Lemma new_Permutation_built (arr : list value) (p : Permutation) :
  new_Permutation arr = Some p → built p.
Proof.
  intros (-> & Hnd & Hr)%new_Permutation_Some.
  by apply validatePermutationArray_true.
Qed.

Lemma constructed_built (p : Permutation) : constructed p → built p.
Proof.
  intros [(arr & H) | [(func & n & H) | [(n & H) | [(q & H) |
          [(this & theta & H) | [(s & H) | (s & n & H)]]]]]].
  - by eapply new_Permutation_built.
  - by eapply new_Permutation_built.
  - by eapply new_Permutation_built.
  - by eapply new_Permutation_built.
  - unfold compose in H. case_bool_decide; [done|].
    by eapply new_Permutation_built.
  - unfold fromString, fromCycleString in H. case_bool_decide.
    + destruct (fromCycleString_array _ _); [|done]. injection H as H.
      by eapply new_Permutation_built.
    + injection H as H. by eapply new_Permutation_built.
  - unfold fromCycleString in H.
    destruct (fromCycleString_array _ _); [|done]. injection H as H.
    by eapply new_Permutation_built.
Qed.

Lemma segment_perm_bijection (zs : list Z) :
  segment_perm zs → bijection_of_domain (mkPermutation (Num <$> zs)).
Proof.
  intros Hseg. unfold bijection_of_domain, plength, PERMUTATION_INDEX.
  simpl values. rewrite length_fmap. split; [|split].
  - intros i Hi. rewrite at_get.
    destruct (get_segment zs Hseg i Hi) as (j & Hj & Hr).
    exists j. split; [done | lia].
  - intros i i' Hi Hi'. rewrite !at_get. by apply segment_perm_inj.
  - intros j Hj.
    assert (j ∈ zs) as (k & Hk)%list_elem_of_lookup_1
      by (apply segment_perm_surj; [done | lia]).
    exists (Z.of_nat k). split.
    + apply lookup_lt_Some in Hk. lia.
    + rewrite at_get. by apply segment_perm_get.
Qed.

(** C9, as amended. Every Permutation built by a public operation went
    through the validation: its stored values are pairwise distinct and
    every stored integer lies in
    [PERMUTATION_INDEX, MAX_ALLOWED_PERMUTATION_INDEX]. When its [n] stored
    values are all integers below [PERMUTATION_INDEX + n], each lies in
    [PERMUTATION_INDEX, PERMUTATION_INDEX + n) and [at] is a bijection of
    the domain onto itself. *)
Theorem constructed_invariant (p : Permutation) :
  constructed p →
  NoDup (values p) ∧
  (∀ z, Num z ∈ values p →
        PERMUTATION_INDEX ≤ z ≤ MAX_ALLOWED_PERMUTATION_INDEX) ∧
  (below_length p →
   (∀ v, v ∈ values p →
         ∃ z, v = Num z ∧
              PERMUTATION_INDEX ≤ z
                < PERMUTATION_INDEX + Z.of_nat (plength p)) ∧
   bijection_of_domain p).
Proof.
  intros Hb%constructed_built.
  pose proof (proj1 (validatePermutationArray_true _) Hb) as [Hnd Hr].
  rewrite Forall_forall in Hr. split; [done|]. split.
  - intros z Hz. by apply (Hr (Num z)).
  - intros Hlt. split.
    + intros v Hv. destruct (Hlt v Hv) as (z & -> & Hz). exists z.
      split; [done|]. specialize (Hr _ Hv). simpl in Hr. lia.
    + destruct (segment_perm_values p Hb Hlt) as (zs & Hzs & Hseg).
      destruct p as [l]. simpl in Hzs. subst l.
      by apply segment_perm_bijection.
Qed.

Lemma constructed_invariant_witness :
  NoDup (values (mkPermutation [Num 1; Num 2; Num 0])) ∧
  (∀ z, Num z ∈ values (mkPermutation [Num 1; Num 2; Num 0]) →
        PERMUTATION_INDEX ≤ z ≤ MAX_ALLOWED_PERMUTATION_INDEX) ∧
  (∀ v, v ∈ values (mkPermutation [Num 1; Num 2; Num 0]) →
        ∃ z, v = Num z ∧
             PERMUTATION_INDEX ≤ z
               < PERMUTATION_INDEX
                 + Z.of_nat (plength (mkPermutation [Num 1; Num 2; Num 0]))) ∧
  bijection_of_domain (mkPermutation [Num 1; Num 2; Num 0]).
Proof.
  destruct (constructed_invariant (mkPermutation [Num 1; Num 2; Num 0]))
    as (Hnd & Hr & Hb).
  - left. exists [Num 1; Num 2; Num 0]. reflexivity.
  - split; [exact Hnd|]. split; [exact Hr|]. apply Hb.
    apply below_lengthb_true. reflexivity.
Defined.

(** The identity is built for every length up to 36, and its values are
    below its length. *)
Lemma getIdentity_below_length (n : nat) (p : Permutation) :
  getIdentity n = Some p → plength p = n ∧ below_length p.
Proof.
  unfold getIdentity, fromFunction. intros (-> & _)%new_Permutation_Some.
  unfold below_length, plength. simpl.
  rewrite length_fmap, length_counter. split; [done|].
  intros v (i & -> & Hi%elem_of_counter)%list_elem_of_fmap.
  exists (i + PERMUTATION_INDEX). split; [done|]. unfold PERMUTATION_INDEX. lia.
Qed.

(** * Further properties of the code *)

(** ** Duplicate detection, validation and construction *)

Lemma not_NoDup_positions (arr : list value) :
  ¬ NoDup arr →
  ∃ (i j : nat) v, i ≠ j ∧ arr !! i = Some v ∧ arr !! j = Some v.
Proof.
  induction arr as [|a arr IH]; intros Hnd.
  - destruct Hnd. constructor.
  - destruct (decide (a ∈ arr)) as [Hin | Hout].
    + apply list_elem_of_lookup_1 in Hin as (k & Hk).
      by exists 0%nat, (S k), a.
    + destruct IH as (i & j & v & Hne & Hi & Hj).
      { intros H. apply Hnd. by constructor. }
      exists (S i), (S j), v. split; [lia | done].
Qed.

(** X1. [hasDuplicates] answers true exactly when some entry of the array
    occurs at two positions. *)
Theorem hasDuplicates_true (arr : list value) :
  hasDuplicates arr = true ↔
    ∃ (i j : nat) v, i ≠ j ∧ arr !! i = Some v ∧ arr !! j = Some v.
Proof.
  rewrite <- not_false_iff_true, hasDuplicates_false. split.
  - apply not_NoDup_positions.
  - intros (i & j & v & Hne & Hi & Hj) Hnd.
    by apply Hne, (NoDup_lookup arr i j v).
Qed.

(** X2. [validatePermutationArray] accepts an array exactly when no entry
    occurs twice and every entry is [undefined] or a number between the two
    bounds: an [undefined] entry passes the range test, so an accepted array
    may hold one, and never two. *)
Theorem validatePermutationArray_accepts (arr : list value) :
  (validatePermutationArray arr = true ↔
     NoDup arr ∧
     ∀ v, v ∈ arr →
          v = Undefined ∨
          ∃ z, v = Num z ∧
               PERMUTATION_INDEX ≤ z ≤ MAX_ALLOWED_PERMUTATION_INDEX) ∧
  (validatePermutationArray arr = true →
   ∀ i j : nat, arr !! i = Some Undefined → arr !! j = Some Undefined → i = j).
Proof.
  assert (validatePermutationArray arr = true ↔
          NoDup arr ∧
          ∀ v, v ∈ arr →
               v = Undefined ∨
               ∃ z, v = Num z ∧
                    PERMUTATION_INDEX ≤ z ≤ MAX_ALLOWED_PERMUTATION_INDEX)
    as Hiff.
  { rewrite validatePermutationArray_true, Forall_forall. split.
    - intros [Hnd Hr]. split; [done|]. intros v Hv. specialize (Hr v Hv).
      destruct v as [|z]; [by left | right; by exists z].
    - intros [Hnd Hr]. split; [done|]. intros v Hv.
      destruct (Hr v Hv) as [-> | (z & -> & Hz)]; [done | exact Hz]. }
  split; [exact Hiff|]. intros [Hnd _]%Hiff i j Hi Hj.
  by apply (NoDup_lookup arr i j Undefined).
Qed.

(** X3. [clone] of a built Permutation succeeds and holds the same array. *)
Theorem clone_same_array (p : Permutation) :
  built p →
  ∃ q, clone p = Some q ∧ values q = values p ∧
       plength q = plength p ∧ ∀ i, at_ q i = at_ p i.
Proof. intros Hb. exists p. by rewrite clone_built. Qed.

Lemma clone_same_array_witness :
  ∃ q, clone (mkPermutation [Num 1; Num 2; Num 0]) = Some q ∧
       values q = values (mkPermutation [Num 1; Num 2; Num 0]) ∧
       plength q = plength (mkPermutation [Num 1; Num 2; Num 0]) ∧
       ∀ i, at_ q i = at_ (mkPermutation [Num 1; Num 2; Num 0]) i.
Proof.
  apply (clone_same_array (mkPermutation [Num 1; Num 2; Num 0])).
  reflexivity.
Defined.

Lemma getIdentity_small (n : nat) :
  (n ≤ 36)%nat →
  ∃ p, getIdentity n = Some p ∧ plength p = n ∧
       ∀ i, 0 ≤ i < Z.of_nat n → at_ p i = Num i.
Proof.
  unfold getIdentity, fromFunction. intros Hn.
  exists (mkPermutation ((λ i, Num (i + PERMUTATION_INDEX)) <$> counter 0 n)).
  split; [|split].
  - apply new_Permutation_Some. split; [done|]. split.
    + apply NoDup_fmap_2_strong.
      * intros a b _ _ [= H]. lia.
      * unfold counter. apply NoDup_fmap_2_strong; [|apply NoDup_seq].
        intros a b _ _ H. lia.
    + rewrite Forall_fmap, Forall_forall. intros i Hi%elem_of_counter.
      simpl. unfold PERMUTATION_INDEX, MAX_ALLOWED_PERMUTATION_INDEX. lia.
  - unfold plength. simpl. by rewrite length_fmap, length_counter.
  - intros i Hi. replace i with (Z.of_nat (Z.to_nat i)) at 1 by lia.
    apply at_lookup. simpl.
    rewrite list_lookup_fmap, lookup_counter by lia.
    unfold PERMUTATION_INDEX. cbn [fmap option_fmap option_map].
    do 2 f_equal. lia.
Qed.

(** X4. [getIdentity(n)] builds a Permutation exactly for [n] up to 36; it
    has length [n] and maps every index to itself. For a larger [n] the
    entry 36 is refused and nothing is built. *)
Theorem getIdentity_bounds (n : nat) :
  ((n ≤ 36)%nat →
   ∃ p, getIdentity n = Some p ∧ plength p = n ∧
        ∀ i, 0 ≤ i < Z.of_nat n → at_ p i = Num i) ∧
  ((36 < n)%nat → getIdentity n = None).
Proof.
  split; [apply getIdentity_small|].
  unfold getIdentity, fromFunction.
  intros Hn. apply new_Permutation_None. intros [_ Hr].
  rewrite Forall_fmap, Forall_forall in Hr.
  specialize (Hr 36). simpl in Hr.
  unfold PERMUTATION_INDEX, MAX_ALLOWED_PERMUTATION_INDEX in Hr.
  assert (36 ∈ counter 0 n) as Hin by (apply elem_of_counter; lia).
  specialize (Hr Hin). lia.
Qed.

Lemma getIdentity_bounds_witness :
  (∃ p, getIdentity 3 = Some p ∧ plength p = 3%nat ∧
        ∀ i, 0 ≤ i < Z.of_nat 3 → at_ p i = Num i) ∧
  getIdentity 37 = None.
Proof.
  split.
  - apply (proj1 (getIdentity_bounds 3)). lia.
  - apply (proj2 (getIdentity_bounds 37)). lia.
Defined.

(** X5. When [fromFunction(func, n)] builds a Permutation, it has length
    [n], it maps every index [i] of [0, n) to [func(i)], and [func] takes
    no value twice on [0, n). *)
Theorem fromFunction_tabulates (func : Z → value) (n : nat) (p : Permutation) :
  fromFunction func n = Some p →
  plength p = n ∧
  (∀ i, 0 ≤ i < Z.of_nat n → at_ p i = func i) ∧
  (∀ i j, 0 ≤ i < Z.of_nat n → 0 ≤ j < Z.of_nat n → func i = func j → i = j).
Proof.
  unfold fromFunction. intros (-> & Hnd & _)%new_Permutation_Some.
  assert (∀ i, 0 ≤ i < Z.of_nat n →
            (func <$> counter 0 n) !! Z.to_nat i = Some (func i)) as Hlk.
  { intros i Hi. rewrite list_lookup_fmap, lookup_counter by lia. simpl.
    do 2 f_equal. lia. }
  split; [|split].
  - unfold plength. simpl. by rewrite length_fmap, length_counter.
  - intros i Hi. replace i with (Z.of_nat (Z.to_nat i)) at 1 by lia.
    apply at_lookup. simpl. by apply Hlk.
  - intros i j Hi Hj Heq. pose proof (Hlk i Hi) as H1. pose proof (Hlk j Hj) as H2.
    rewrite Heq in H1. pose proof (NoDup_lookup _ _ _ _ Hnd H1 H2). lia.
Qed.

Lemma fromFunction_tabulates_witness :
  plength (mkPermutation [Num 2; Num 1; Num 0]) = 3%nat ∧
  (∀ i, 0 ≤ i < Z.of_nat 3 →
        at_ (mkPermutation [Num 2; Num 1; Num 0]) i = Num (2 - i)) ∧
  (∀ i j, 0 ≤ i < Z.of_nat 3 → 0 ≤ j < Z.of_nat 3 →
          Num (2 - i) = Num (2 - j) → i = j).
Proof.
  apply (fromFunction_tabulates (λ i, Num (2 - i)) 3
           (mkPermutation [Num 2; Num 1; Num 0])).
  reflexivity.
Defined.

(** X6. [at(i)] reads [undefined] at every index outside [0, length), and
    a stored value inside it. *)
Theorem at_outside_domain (p : Permutation) (i : Z) :
  (i < 0 ∨ Z.of_nat (plength p) ≤ i → at_ p i = Undefined) ∧
  (0 ≤ i < Z.of_nat (plength p) → at_ p i ∈ values p).
Proof.
  unfold at_, get, plength, PERMUTATION_INDEX. split.
  - intros [Hi | Hi].
    + by rewrite bool_decide_eq_false_2 by lia.
    + rewrite bool_decide_eq_true_2 by lia.
      by rewrite (proj2 (lookup_ge_None _ _)) by lia.
  - intros Hi. rewrite bool_decide_eq_true_2 by lia.
    destruct (lookup_lt_is_Some_2 (values p) (Z.to_nat (i + 0 - 0))) as [v Hv];
      [lia|].
    rewrite Hv. simpl. by eapply list_elem_of_lookup_2.
Qed.

Lemma at_outside_domain_witness :
  at_ (mkPermutation [Num 1; Num 0]) 2 = Undefined ∧
  at_ (mkPermutation [Num 1; Num 0]) 1 ∈ values (mkPermutation [Num 1; Num 0]).
Proof.
  split.
  - apply (proj1 (at_outside_domain (mkPermutation [Num 1; Num 0]) 2)).
    right. unfold plength. simpl. lia.
  - apply (proj2 (at_outside_domain (mkPermutation [Num 1; Num 0]) 1)).
    unfold plength. simpl. lia.
Defined.

(** ** Composition *)

Lemma built_numbers (p : Permutation) :
  built p → Undefined ∉ values p →
  ∃ zs, values p = Num <$> zs ∧
        NoDup zs ∧
        Forall (λ z, 0 ≤ z ≤ MAX_ALLOWED_PERMUTATION_INDEX) zs.
Proof.
  intros Hb Hdef. apply validatePermutationArray_true in Hb as [Hnd Hr].
  destruct (values_are_numbers (values p)) as [zs Hzs].
  { intros [|z] Hv; [done | by exists z]. }
  exists zs. rewrite Hzs in Hnd, Hr. split; [done|]. split.
  - by apply (proj1 (NoDup_fmap Num zs)).
  - rewrite Forall_fmap in Hr. eapply Forall_impl; [done|]. simpl.
    unfold PERMUTATION_INDEX. lia.
Qed.

Lemma getIdentity_values (n : nat) (e : Permutation) :
  getIdentity n = Some e → values e = Num <$> counter 0 n.
Proof.
  unfold getIdentity, fromFunction. intros (-> & _)%new_Permutation_Some.
  simpl. apply list_fmap_ext. intros _ i _. unfold PERMUTATION_INDEX.
  f_equal. lia.
Qed.

(** X7. Composing a built Permutation with the identity of its length on
    the right gives the Permutation back, whatever values it stores. *)
Theorem compose_identity_right (p e : Permutation) :
  built p → getIdentity (plength p) = Some e → compose p e = Some p.
Proof.
  intros Hb He. pose proof (getIdentity_values _ _ He) as Hv.
  assert (plength e = plength p) as Hlen
    by (unfold plength at 1; by rewrite Hv, length_fmap, length_counter).
  unfold compose. rewrite bool_decide_eq_false_2 by (by intros []).
  rewrite compose_array_values, Hv, <- list_fmap_compose by done.
  pose proof (get_counter p) as Hg. unfold PERMUTATION_INDEX in Hg.
  change (get p ∘ Num) with (λ i, get p (Num i)). rewrite Hg.
  by apply built_iff.
Qed.

Lemma compose_identity_right_witness :
  compose (mkPermutation [Num 5]) (mkPermutation [Num 0])
    = Some (mkPermutation [Num 5]).
Proof.
  apply (compose_identity_right (mkPermutation [Num 5]) (mkPermutation [Num 0]));
    reflexivity.
Defined.

(** X8. Composing with the identity on the left gives a built Permutation
    back when its stored values are all below its length. *)
Theorem compose_identity_left (p e : Permutation) :
  built p → below_length p → getIdentity (plength p) = Some e →
  compose e p = Some p.
Proof.
  intros Hb Hlt He. pose proof (getIdentity_values _ _ He) as Hv.
  assert (plength e = plength p) as Hlen
    by (unfold plength at 1; by rewrite Hv, length_fmap, length_counter).
  unfold compose. rewrite bool_decide_eq_false_2 by (by intros []).
  rewrite compose_array_values by done.
  assert (get e <$> values p = values p) as ->; [|by apply built_iff].
  rewrite <- (list_fmap_id (values p)) at 2. apply list_fmap_ext.
  intros _ v Hv'%list_elem_of_lookup_2.
  apply validatePermutationArray_true in Hb as [_ Hr].
  rewrite Forall_forall in Hr. specialize (Hr v Hv').
  destruct (Hlt v Hv') as (z & -> & Hz). simpl in Hr.
  unfold PERMUTATION_INDEX in *. change (get e (Num z) = Num z).
  replace z with (Z.of_nat (Z.to_nat z)) at 1 by lia.
  apply get_lookup. rewrite Hv, list_lookup_fmap, lookup_counter by lia.
  cbn [fmap option_fmap option_map]. do 2 f_equal. lia.
Qed.

Lemma compose_identity_left_witness :
  compose (mkPermutation [Num 0; Num 1; Num 2])
          (mkPermutation [Num 1; Num 2; Num 0])
    = Some (mkPermutation [Num 1; Num 2; Num 0]).
Proof.
  apply (compose_identity_left (mkPermutation [Num 1; Num 2; Num 0])
                               (mkPermutation [Num 0; Num 1; Num 2])).
  - reflexivity.
  - apply below_lengthb_true. reflexivity.
  - reflexivity.
Defined.

Lemma compose_values (a b ab : Permutation) :
  compose a b = Some ab → values ab = get a <$> values b.
Proof.
  unfold compose. case_bool_decide as Hlen; [done|].
  intros (-> & _)%new_Permutation_Some. simpl.
  apply compose_array_values. by destruct (decide (plength b = plength a)).
Qed.

Lemma get_compose (a b ab : Permutation) (z : Z) :
  compose a b = Some ab → 0 ≤ z → get ab (Num z) = get a (get b (Num z)).
Proof.
  intros Hab Hz. pose proof (compose_values _ _ _ Hab) as Hv.
  unfold get at 1 3. unfold PERMUTATION_INDEX.
  rewrite !bool_decide_eq_true_2 by lia. rewrite Hv, list_lookup_fmap.
  by destruct (values b !! Z.to_nat (z - 0)).
Qed.

(** X9. Composition is associative on built Permutations of one length
    whose stored values are below that length: both groupings build the
    same Permutation. *)
Theorem compose_assoc (a b c ab bc : Permutation) :
  built a → below_length a → built b → below_length b →
  built c → below_length c →
  plength b = plength a → plength c = plength a →
  compose a b = Some ab → compose b c = Some bc →
  compose ab c = compose a bc ∧ is_Some (compose a bc).
Proof.
  intros Ha Hla Hb Hlb Hc Hlc Hlenb Hlenc Hab Hbc.
  destruct (composite_built b c Hb Hlb Hc Hlc) as (bc' & Hbc' & Hlbc & _ & Hbbc & Hlbc');
    [congruence|].
  rewrite Hbc in Hbc'. injection Hbc' as <-.
  destruct (composite_built a bc Ha Hla Hbbc Hlbc') as (r & Hr & _);
    [congruence|].
  split; [|by rewrite Hr].
  assert (plength ab = plength a) as Hlab.
  { unfold plength at 1. rewrite (compose_values _ _ _ Hab), length_fmap.
    exact Hlenb. }
  unfold compose. rewrite !bool_decide_eq_false_2 by (intros []; congruence).
  f_equal. rewrite !compose_array_values by congruence.
  rewrite (compose_values _ _ _ Hbc), <- list_fmap_compose.
  apply list_fmap_ext. intros _ v Hv%list_elem_of_lookup_2.
  apply validatePermutationArray_true in Hc as [_ Hrc].
  rewrite Forall_forall in Hrc. specialize (Hrc v Hv).
  destruct (Hlc v Hv) as (z & -> & _). simpl in Hrc.
  unfold PERMUTATION_INDEX in Hrc. simpl. apply (get_compose a b ab); [done | lia].
Qed.

Lemma compose_assoc_witness :
  compose (mkPermutation [Num 2; Num 1; Num 0]) (mkPermutation [Num 1; Num 2; Num 0])
    = compose (mkPermutation [Num 1; Num 2; Num 0])
              (mkPermutation [Num 0; Num 2; Num 1]) ∧
  is_Some (compose (mkPermutation [Num 1; Num 2; Num 0])
                   (mkPermutation [Num 0; Num 2; Num 1])).
Proof.
  apply (compose_assoc (mkPermutation [Num 1; Num 2; Num 0])
                       (mkPermutation [Num 1; Num 0; Num 2])
                       (mkPermutation [Num 1; Num 2; Num 0])
                       (mkPermutation [Num 2; Num 1; Num 0])
                       (mkPermutation [Num 0; Num 2; Num 1]));
    try reflexivity; apply below_lengthb_true; reflexivity.
Defined.

(** ** The character codec and the flat string *)

Lemma getChar_below (z : Z) :
  z ≤ MAX_ALLOWED_PERMUTATION_INDEX → ∃ u, getChar (Num z) = Some [u].
Proof.
  unfold getChar, MAX_ALLOWED_PERMUTATION_INDEX, fromCharCode. intros Hz.
  destruct (bool_decide (0 ≤ z) && bool_decide (z ≤ 9)); [by eexists|].
  rewrite bool_decide_eq_true_2 by done. by eexists.
Qed.

(** X10. [getChar] returns no character exactly on [undefined] and on the
    numbers above 35; every other number, the negative ones included, gets
    a string of one character. *)
Theorem getChar_fails (v : value) :
  (getChar v = None ↔
     v = Undefined ∨ ∃ z, v = Num z ∧ MAX_ALLOWED_PERMUTATION_INDEX < z) ∧
  (∀ s, getChar v = Some s → length s = 1%nat).
Proof.
  destruct v as [|z].
  { split; [|done]. split; [by left | done]. }
  destruct (decide (z ≤ MAX_ALLOWED_PERMUTATION_INDEX)) as [Hz | Hz].
  - destruct (getChar_below z Hz) as [u Hu]. rewrite Hu. split.
    + split; [done|]. intros [? | (z' & [= <-] & ?)]; [done | lia].
    + by intros s [= <-].
  - rewrite getChar_above by lia. split; [|done].
    split; [|done]. intros _. right. exists z. split; [done | lia].
Qed.

(** X11. On the numbers 0 to 35 [parseChar] undoes [getChar]: the
    character is a digit for 0 to 9 and a capital letter for 10 to 35. *)
Theorem parseChar_getChar (z : Z) :
  0 ≤ z ≤ MAX_ALLOWED_PERMUTATION_INDEX →
  ∃ u, getChar (Num z) = Some [u] ∧ parseChar [u] = Num z ∧
       ((z ≤ 9 ∧ u = C0 + z) ∨ (10 ≤ z ∧ u = CA + (z - 10))).
Proof.
  intros Hz. exists (char_code z). split; [by apply getChar_in_range|].
  split; [by apply parseChar_char_code|].
  unfold char_code. case_bool_decide; [left | right]; split; (lia || done).
Qed.

Lemma parseChar_getChar_witness :
  ∃ u, getChar (Num 35) = Some [u] ∧ parseChar [u] = Num 35 ∧
       ((35 ≤ 9 ∧ u = C0 + 35) ∨ (10 ≤ 35 ∧ u = CA + (35 - 10))).
Proof.
  apply (parseChar_getChar 35). unfold MAX_ALLOWED_PERMUTATION_INDEX. lia.
Defined.

(** X12. [parseChar] reads the first character only. It answers a number
    exactly on the digits and the capital letters, that number lies between
    0 and 35 and [getChar] gives the character back; on the empty string and
    on every other character it answers [undefined]. *)
Theorem parseChar_domain (c : jsstring) :
  (∀ z, parseChar c = Num z →
        0 ≤ z ≤ MAX_ALLOWED_PERMUTATION_INDEX ∧ getChar (Num z) = Some (take 1 c)) ∧
  (parseChar c = Undefined ↔
     c = [] ∨ ∃ u c', c = u :: c' ∧ ¬ (C0 ≤ u ≤ C9 ∨ CA ≤ u ≤ CZ)).
Proof.
  assert (∀ u c', parseChar (u :: c') = parseChar [u]) as Hfirst by done.
  destruct c as [|u c']; [split; [done | split; [by left | done]]|].
  rewrite Hfirst. simpl take. rewrite take_0.
  destruct (decide (C0 ≤ u ≤ C9 ∨ CA ≤ u ≤ CZ)) as [Hu | Hu].
  - destruct (getChar_parseChar u Hu) as (z & Hz & Hr & Hg). rewrite Hz. split.
    + by intros z' [= <-].
    + split; [done|]. intros [? | (u' & c'' & [= <- <-] & Hno)]; done.
  - rewrite (parseChar_outside u Hu). split; [done|].
    split; [|done]. intros _. right. by exists u, c'.
Qed.

(** X13. The flat string of a built Permutation without [undefined] entry
    has one character per index, and decoding its characters one by one
    gives the stored array back: two such Permutations with the same string
    are the same. *)
Theorem toString_decodes (p : Permutation) :
  built p → Undefined ∉ values p →
  length (toString p) = plength p ∧
  (λ u, parseChar [u]) <$> toString p = values p ∧
  ∀ q, built q → Undefined ∉ values q → toString q = toString p → q = p.
Proof.
  assert (∀ p, built p → Undefined ∉ values p →
            length (toString p) = plength p ∧
            (λ u, parseChar [u]) <$> toString p = values p) as Hdec.
  { clear p. intros p Hb Hdef.
    destruct (built_numbers p Hb Hdef) as (zs & Hzs & _ & Hr).
    rewrite toString_values, Hzs, join_getChar by done.
    unfold plength. rewrite Hzs, !length_fmap. split; [done|].
    rewrite <- list_fmap_compose. apply Forall_fmap_ext_1.
    eapply Forall_impl; [done|]. intros z Hz. simpl.
    by apply parseChar_char_code. }
  intros Hb Hdef. destruct (Hdec p Hb Hdef) as [Hlen Hval].
  split; [done|]. split; [done|]. intros q Hq Hdefq Heq.
  destruct (Hdec q Hq Hdefq) as [_ Hvalq]. rewrite Heq, Hval in Hvalq.
  destruct p, q. simpl in Hvalq. by subst.
Qed.

Lemma toString_decodes_witness :
  length (toString (mkPermutation [Num 10; Num 0])) =
    plength (mkPermutation [Num 10; Num 0]) ∧
  (λ u, parseChar [u]) <$> toString (mkPermutation [Num 10; Num 0])
    = values (mkPermutation [Num 10; Num 0]) ∧
  ∀ q, built q → Undefined ∉ values q →
       toString q = toString (mkPermutation [Num 10; Num 0]) →
       q = mkPermutation [Num 10; Num 0].
Proof.
  apply (toString_decodes (mkPermutation [Num 10; Num 0])).
  - reflexivity.
  - apply (bool_decide_unpack _). vm_compute. exact I.
Defined.

(** ** Parsing flat strings *)

Lemma valid_chars_codes (s : jsstring) :
  Forall (λ u, C0 ≤ u ≤ C9 ∨ CA ≤ u ≤ CZ) s →
  ∃ zs, s = char_code <$> zs ∧
        Forall (λ z, 0 ≤ z ≤ MAX_ALLOWED_PERMUTATION_INDEX) zs.
Proof.
  induction 1 as [|u s Hu _ (zs & -> & Hzs)]; [by exists []|].
  destruct (getChar_parseChar u Hu) as (z & _ & Hz & Hg).
  rewrite getChar_in_range in Hg by done. injection Hg as <-.
  exists (z :: zs). split; [done | by constructor].
Qed.

Lemma foldl_max_attained (zs : list Z) :
  zs ≠ [] → Forall (λ z, 0 ≤ z) zs → foldl Z.max 0 zs ∈ zs.
Proof.
  intros Hne Hpos. destruct (foldl_max_spec zs 0) as (_ & Hall & [H0 | Hin]);
    [|done].
  destruct zs as [|z zs]; [done|]. rewrite H0 in Hall |- *.
  apply Forall_cons in Hall as [Hz _]. apply Forall_cons in Hpos as [Hz' _].
  replace z with 0 by lia. by left.
Qed.

Lemma lookup_fromString_array (zs : list Z) (j : nat) :
  Forall (λ z, 0 ≤ z ≤ MAX_ALLOWED_PERMUTATION_INDEX) zs →
  (Z.of_nat j ≤ foldl Z.max 0 zs) →
  fromString_array (char_code <$> zs) !! j =
    Some (match zs !! j with Some z => Num z | None => Num (Z.of_nat j) end).
Proof.
  intros Hr Hj. unfold fromString_array, fromString_max_char.
  rewrite foldl_max_update_codes by done.
  rewrite list_lookup_fmap, lookup_counter by lia.
  cbn [fmap option_fmap option_map]. f_equal. rewrite Z.add_0_l, length_fmap.
  destruct (zs !! j) as [z|] eqn:E.
  - pose proof (lookup_lt_Some _ _ _ E). rewrite bool_decide_eq_true_2 by lia.
    unfold char_at. rewrite Nat2Z.id, list_lookup_fmap, E. simpl.
    rewrite Forall_forall in Hr. apply parseChar_char_code, Hr.
    by eapply list_elem_of_lookup_2.
  - apply lookup_ge_None in E. by rewrite bool_decide_eq_false_2 by lia.
Qed.

Lemma flat_codes_built (zs : list Z) (p : Permutation) :
  Forall (λ z, 0 ≤ z ≤ MAX_ALLOWED_PERMUTATION_INDEX) zs → zs ≠ [] →
  fromString (char_code <$> zs) = Normal (Some p) →
  Z.of_nat (plength p) = foldl Z.max 0 zs + 1 ∧
  (plength p ≤ length zs)%nat ∧
  values p = Num <$> take (plength p) zs.
Proof.
  intros Hr Hne. unfold fromString, indexOf. change (units "(") with [40].
  rewrite drop_0, find_sub_absent.
  2:{ intros Hin. apply list_elem_of_fmap in Hin as (z & Hz & Hin).
      rewrite Forall_forall in Hr.
      by apply (char_code_not_paren z 40 (Hr z Hin)); [left|]. }
  simpl. intros [= (-> & Hnd & _)%new_Permutation_Some].
  set (M := foldl Z.max 0 zs) in *.
  assert (0 ≤ M) as HM0 by (destruct (foldl_max_spec zs 0) as [? _]; done).
  assert (length (fromString_array (char_code <$> zs)) = Z.to_nat (M + 1)) as Hlen.
  { unfold fromString_array, fromString_max_char.
    by rewrite foldl_max_update_codes, length_fmap, length_counter. }
  assert (Z.to_nat M < length zs)%nat as Hlt.
  { destruct (decide (Z.to_nat M < length zs)%nat) as [|Hge]; [done|].
    exfalso.
    assert (M ∈ zs) as (k & Hk)%list_elem_of_lookup_1.
    { apply foldl_max_attained; [done|]. eapply Forall_impl; [done|].
      simpl. lia. }
    pose proof (lookup_lt_Some _ _ _ Hk) as Hklt.
    pose proof (lookup_fromString_array zs k Hr ltac:(fold M; lia)) as H1.
    pose proof (lookup_fromString_array zs (Z.to_nat M) Hr ltac:(fold M; lia)) as H2.
    rewrite Hk in H1.
    rewrite (proj2 (lookup_ge_None zs (Z.to_nat M))), Z2Nat.id in H2 by lia.
    pose proof (NoDup_lookup _ _ _ _ Hnd H1 H2). lia. }
  unfold plength. simpl values. rewrite Hlen. split; [lia|]. split; [lia|].
  apply list_eq. intros j. rewrite list_lookup_fmap.
  destruct (decide (j < Z.to_nat (M + 1))%nat) as [Hj | Hj].
  - rewrite lookup_fromString_array by (fold M; lia || done).
    rewrite lookup_take_lt by done.
    destruct (lookup_lt_is_Some_2 zs j) as [z Hz]; [lia|]. by rewrite Hz.
  - rewrite (proj2 (lookup_ge_None _ _)) by lia.
    by rewrite lookup_take_ge by lia.
Qed.

(** X14. On a non-empty string of digits and capital letters [fromString]
    builds a Permutation only when the string starts with a permutation of
    0, ..., M, where M is the highest decoded value: the result has length
    M + 1, which is at most the length of the string, it holds the first
    M + 1 decoded characters, its values are below its length, and the rest
    of the string is ignored. Padding with fixed points never leads to a
    Permutation. *)
Theorem fromString_flat (s : jsstring) (p : Permutation) :
  Forall (λ u, C0 ≤ u ≤ C9 ∨ CA ≤ u ≤ CZ) s → s ≠ [] →
  fromString s = Normal (Some p) →
  Z.of_nat (plength p) = fromString_max_char s + 1 ∧
  (plength p ≤ length s)%nat ∧
  values p = (λ u, parseChar [u]) <$> take (plength p) s ∧
  below_length p.
Proof.
  intros Hs Hne Hp. destruct (valid_chars_codes s Hs) as (zs & -> & Hr).
  assert (zs ≠ []) as Hne' by (by intros ->).
  destruct (flat_codes_built zs p Hr Hne' Hp) as (Hlen & Hle & Hval).
  assert (fromString_max_char (char_code <$> zs) = foldl Z.max 0 zs) as HM
    by (unfold fromString_max_char; by rewrite foldl_max_update_codes).
  rewrite HM, length_fmap. split; [done|]. split; [done|]. split.
  - rewrite Hval, <- fmap_take, <- list_fmap_compose.
    apply Forall_fmap_ext_1. apply Forall_take.
    eapply Forall_impl; [done|]. intros z Hz. simpl.
    by rewrite parseChar_char_code.
  - intros v Hv. rewrite Hval in Hv.
    apply list_elem_of_fmap in Hv as (z & -> & Hz%elem_of_take).
    destruct Hz as (k & Hk & _). exists z. split; [done|].
    destruct (foldl_max_spec zs 0) as (_ & Hall & _).
    rewrite Forall_forall in Hall.
    specialize (Hall z (list_elem_of_lookup_2 _ _ _ Hk)).
    unfold PERMUTATION_INDEX. lia.
Qed.

Lemma fromString_flat_witness :
  Z.of_nat (plength (mkPermutation [Num 1; Num 0]))
    = fromString_max_char (units "1001") + 1 ∧
  (plength (mkPermutation [Num 1; Num 0]) ≤ length (units "1001"))%nat ∧
  values (mkPermutation [Num 1; Num 0])
    = (λ u, parseChar [u])
        <$> take (plength (mkPermutation [Num 1; Num 0])) (units "1001") ∧
  below_length (mkPermutation [Num 1; Num 0]).
Proof.
  apply (fromString_flat (units "1001") (mkPermutation [Num 1; Num 0])).
  - apply (bool_decide_unpack _). vm_compute. exact I.
  - discriminate.
  - reflexivity.
Defined.

Lemma fromString_max_char_bounds (s : jsstring) :
  0 ≤ fromString_max_char s ≤ MAX_ALLOWED_PERMUTATION_INDEX.
Proof.
  unfold fromString_max_char. rewrite foldl_max_update_decoded.
  destruct (foldl_max_spec (decoded s) 0) as (H0 & _ & [-> | Hin]).
  - unfold MAX_ALLOWED_PERMUTATION_INDEX. lia.
  - apply elem_of_decoded in Hin as (u & _ & Hz).
    by apply parseChar_bounds in Hz.
Qed.

(** X15. [fromString] never raises, whatever the string; a Permutation it
    builds has at least one entry and at most 36. *)
Theorem fromString_returns (s : jsstring) :
  ∃ r, fromString s = Normal r ∧
       ∀ p, r = Some p → (1 ≤ plength p ≤ 36)%nat.
Proof.
  unfold fromString. case_bool_decide.
  - pose proof (getHighestChar_bounds (splitCycles s)) as Hn.
    unfold fromCycleString. rewrite fromCycleString_array_spec.
    2:{ apply Forall_forall. intros i Hi%elem_of_counter. lia. }
    eexists. split; [done|]. intros p (-> & _)%new_Permutation_Some.
    unfold plength. simpl. rewrite length_fmap, length_counter.
    unfold MAX_ALLOWED_PERMUTATION_INDEX in Hn. lia.
  - eexists. split; [done|]. intros p (-> & _)%new_Permutation_Some.
    pose proof (fromString_max_char_bounds s) as Hn.
    unfold plength, fromString_array. simpl.
    rewrite length_fmap, length_counter.
    unfold MAX_ALLOWED_PERMUTATION_INDEX in Hn. lia.
Qed.

(** ** Parsing cycle strings *)

Lemma fromCycleString_array_TypeError (splits : list jsstring) (idxs : list Z)
    (i : Z) :
  i ∈ idxs → fromCycleString_entry splits i = TypeError →
  fromCycleString_array splits idxs = TypeError.
Proof.
  intros Hi He. induction idxs as [|j idxs IH]; [by apply elem_of_nil in Hi|].
  cbn [fromCycleString_array].
  apply elem_of_cons in Hi as [<- | Hi]; [by rewrite He|].
  rewrite (IH Hi). by destruct (fromCycleString_entry splits j).
Qed.

(** X16. When the string holds no parenthesized group of two characters or
    more, [fromCycleString(s, n)] with [n] between 0 and 35 builds the
    identity of length [n + 1], and with [n] left out the identity of
    length 1. *)
Theorem fromCycleString_no_cycle (s : jsstring) (n : Z) :
  splitCycles s = [] → 0 ≤ n ≤ MAX_ALLOWED_PERMUTATION_INDEX →
  fromCycleString s (Num n) = Normal (getIdentity (Z.to_nat (n + 1))) ∧
  (∃ p, getIdentity (Z.to_nat (n + 1)) = Some p) ∧
  fromCycleString s Undefined = Normal (getIdentity 1).
Proof.
  intros Hs Hn.
  assert (∀ m, 0 ≤ m ≤ MAX_ALLOWED_PERMUTATION_INDEX →
            fromCycleString_array [] (counter 0 (Z.to_nat (m + 1)))
            = Normal ((λ i, Num (i + PERMUTATION_INDEX))
                        <$> counter 0 (Z.to_nat (m + 1)))) as Harr.
  { intros m Hm. rewrite fromCycleString_array_spec.
    - f_equal. apply Forall_fmap_ext_1, Forall_forall.
      intros i Hi%elem_of_counter. unfold spec_image, PERMUTATION_INDEX.
      simpl. rewrite parseChar_char_code by lia. f_equal. lia.
    - apply Forall_forall. intros i Hi%elem_of_counter. lia. }
  split; [|split].
  - unfold fromCycleString. rewrite Hs. by rewrite Harr.
  - destruct (getIdentity_small (Z.to_nat (n + 1))) as (p & Hp & _).
    { unfold MAX_ALLOWED_PERMUTATION_INDEX in Hn. lia. }
    by exists p.
  - unfold fromCycleString. rewrite Hs.
    change (getHighestChar []) with 0. rewrite Harr; [done|].
    unfold MAX_ALLOWED_PERMUTATION_INDEX. lia.
Qed.

Lemma fromCycleString_no_cycle_witness :
  fromCycleString (units "(0)(1)x") (Num 2)
    = Normal (getIdentity (Z.to_nat (2 + 1))) ∧
  (∃ p, getIdentity (Z.to_nat (2 + 1)) = Some p) ∧
  fromCycleString (units "(0)(1)x") Undefined = Normal (getIdentity 1).
Proof.
  apply (fromCycleString_no_cycle (units "(0)(1)x") 2).
  - reflexivity.
  - unfold MAX_ALLOWED_PERMUTATION_INDEX. lia.
Defined.

(** X17. The bounds of a supplied [n]: a negative [n] builds the empty
    Permutation whatever the string; an [n] above 35 raises the TypeError of
    [parseChar(undefined)] when the string holds no parenthesized group of
    two characters or more, because index 36 has no character. *)
Theorem fromCycleString_n_bounds (s : jsstring) (n : Z) :
  (n < 0 → fromCycleString s (Num n) = Normal (Some (mkPermutation []))) ∧
  (MAX_ALLOWED_PERMUTATION_INDEX < n → splitCycles s = [] →
   fromCycleString s (Num n) = TypeError).
Proof.
  split.
  - intros Hn. unfold fromCycleString.
    by replace (Z.to_nat (n + 1)) with 0%nat by lia.
  - intros Hn Hs. unfold fromCycleString. rewrite Hs.
    rewrite (fromCycleString_array_TypeError [] _ 36); [done | | done].
    apply elem_of_counter. unfold MAX_ALLOWED_PERMUTATION_INDEX in Hn. lia.
Qed.

Lemma fromCycleString_n_bounds_witness :
  fromCycleString (units "(01)") (Num (-2)) = Normal (Some (mkPermutation [])) ∧
  fromCycleString (units "01") (Num 36) = TypeError.
Proof.
  split.
  - apply (proj1 (fromCycleString_n_bounds (units "(01)") (-2))). lia.
  - apply (proj2 (fromCycleString_n_bounds (units "01") 36)).
    + unfold MAX_ALLOWED_PERMUTATION_INDEX. lia.
    + reflexivity.
Defined.

(** ** The cycles of a permutation of an initial segment *)

Lemma cycle_at_least_two (p : Permutation) (cs : list (list value))
    (c : list value) :
  cycle_decomposition p cs → c ∈ cs → (2 ≤ length c)%nat.
Proof.
  intros Hcd Hc. destruct (cd_head _ _ Hcd c Hc) as (i & Hi & _).
  pose proof (lookup_lt_Some _ _ _ Hi) as Hlen.
  destruct (decide (2 ≤ length c)%nat) as [|Hshort]; [done|]. exfalso.
  pose proof (cd_orbit _ _ Hcd c 0%nat (Num i) Hc Hi) as Hnext.
  replace (length c) with 1%nat in Hnext by lia. simpl in Hnext.
  rewrite Hi in Hnext. injection Hnext as Hfix.
  apply (cd_fixed _ _ Hcd c i Hc); [by eapply list_elem_of_lookup_2|].
  by rewrite at_get.
Qed.

(** X18. For a built Permutation whose stored values are below its length,
    every recorded cycle has at least two entries, the entries of all the
    cycles are exactly the indices that the Permutation moves, each once,
    and there is no cycle exactly when every index is a fixed point. *)
Theorem getCycles_moved (p : Permutation) (fuel : nat) :
  built p → below_length p → (plength p ≤ fuel)%nat →
  ∃ cs, getCycles fuel p = Some cs ∧
        (∀ c, c ∈ cs → (2 ≤ length c)%nat) ∧
        NoDup (concat cs) ∧
        (∀ v, v ∈ concat cs ↔
              ∃ i, v = Num i ∧ 0 ≤ i < Z.of_nat (plength p)
                   ∧ at_ p i ≠ Num i) ∧
        (cs = [] ↔ ∀ i, 0 ≤ i < Z.of_nat (plength p) → at_ p i = Num i).
Proof.
  intros Hb Hlt Hfuel.
  destruct (getCycles_segment p fuel Hb Hlt Hfuel) as (cs & Hcs & Hcd).
  exists cs. split; [done|].
  assert (∀ v, v ∈ concat cs ↔
               ∃ i, v = Num i ∧ 0 ≤ i < Z.of_nat (plength p)
                    ∧ at_ p i ≠ Num i) as Hmem.
  { intros v. rewrite elem_of_concat. split.
    - intros (c & Hv & Hc).
      destruct (cd_members _ _ Hcd c v Hc Hv) as (i & -> & Hi).
      exists i. split; [done|]. split; [done|].
      by apply (cd_fixed _ _ Hcd c).
    - intros (i & -> & Hi & Hmoved).
      destruct (cd_cover _ _ Hcd i Hi Hmoved) as (c & Hc & Hin).
      by exists c. }
  split; [intros c Hc; by apply (cycle_at_least_two p cs)|].
  split; [apply Hcd|]. split; [done|]. split.
  - intros -> i Hi. destruct (decide (at_ p i = Num i)) as [|Hmoved]; [done|].
    assert (Num i ∈ concat []) as Hin by (apply Hmem; by exists i).
    by apply elem_of_nil in Hin.
  - intros Hfix. destruct cs as [|c cs]; [done|]. exfalso.
    pose proof (cycle_at_least_two p (c :: cs) c Hcd ltac:(by left)) as Hlen.
    destruct c as [|v c]; [simpl in Hlen; lia|].
    assert (v ∈ concat ((v :: c) :: cs)) as Hv by (simpl; by left).
    apply Hmem in Hv as (i & -> & Hi & Hmoved). by apply Hmoved, Hfix.
Qed.

Lemma getCycles_moved_witness :
  ∃ cs, getCycles 4 (mkPermutation [Num 0; Num 3; Num 2; Num 1]) = Some cs ∧
        (∀ c, c ∈ cs → (2 ≤ length c)%nat) ∧
        NoDup (concat cs) ∧
        (∀ v, v ∈ concat cs ↔
              ∃ i, v = Num i ∧
                   0 ≤ i < Z.of_nat (plength (mkPermutation
                                               [Num 0; Num 3; Num 2; Num 1]))
                   ∧ at_ (mkPermutation [Num 0; Num 3; Num 2; Num 1]) i ≠ Num i) ∧
        (cs = [] ↔
           ∀ i, 0 ≤ i < Z.of_nat (plength (mkPermutation
                                            [Num 0; Num 3; Num 2; Num 1])) →
                at_ (mkPermutation [Num 0; Num 3; Num 2; Num 1]) i = Num i).
Proof.
  apply (getCycles_moved (mkPermutation [Num 0; Num 3; Num 2; Num 1]) 4).
  - reflexivity.
  - apply below_lengthb_true. reflexivity.
  - unfold plength. simpl. lia.
Defined.

(** ** Rendering cycles of indices below 10 *)

Lemma render_cycles_concat (cs : list (list value)) :
  render_cycles cs = concat ((λ c, [40] ++ join_values c ++ [41]) <$> cs).
Proof.
  unfold render_cycles. change (units "(") with [40]. change (units ")") with [41].
  assert (∀ acc, foldl (λ result c, result ++ ([40] ++ join_values c) ++ [41])
                   acc cs
                 = acc ++ concat ((λ c, [40] ++ join_values c ++ [41]) <$> cs))
    as H; [|apply (H [])].
  induction cs as [|c cs IH]; intros acc.
  - simpl. by rewrite app_nil_r.
  - rewrite fmap_cons. cbn [foldl]. rewrite IH.
    change (concat (?x :: ?l)) with (x ++ concat l).
    by rewrite <- !app_assoc.
Qed.

Lemma Number_toString_digit (z : Z) :
  0 ≤ z ≤ 9 → Number_toString z = [char_code z].
Proof.
  intros Hz.
  assert (z = 0 ∨ z = 1 ∨ z = 2 ∨ z = 3 ∨ z = 4 ∨ z = 5 ∨ z = 6 ∨ z = 7
          ∨ z = 8 ∨ z = 9) as Hcases by lia.
  repeat (destruct Hcases as [-> | Hcases]; [reflexivity|]). by subst.
Qed.

Lemma join_values_digits (zs : list Z) :
  Forall (λ z, 0 ≤ z ≤ 9) zs →
  join_values (Num <$> zs) = char_code <$> zs ∧
  join_strings (getChar <$> (Num <$> zs)) = char_code <$> zs.
Proof.
  intros Hd. split.
  - unfold join_values. induction Hd as [|z zs Hz _ IH]; [done|].
    rewrite !fmap_cons. change (concat (?x :: ?l)) with (x ++ concat l).
    by rewrite IH, Number_toString_digit.
  - apply join_getChar. eapply Forall_impl; [done|]. simpl.
    unfold MAX_ALLOWED_PERMUTATION_INDEX. lia.
Qed.

(** X19. For a built Permutation of length at most 10 whose stored values
    are below its length, [toCycleString] writes every cycle with the
    one-character encodings that [getChar] gives, between parentheses, in
    the order of the cycles. *)
Theorem toCycleString_digits (p : Permutation) (fuel : nat) :
  built p → below_length p → (plength p ≤ 10)%nat → (plength p ≤ fuel)%nat →
  ∃ cs, getCycles fuel p = Some cs ∧
        toCycleString fuel p =
          Some (concat ((λ c, [40] ++ join_strings (getChar <$> c) ++ [41])
                          <$> cs)).
Proof.
  intros Hb Hlt Hten Hfuel.
  destruct (getCycles_segment p fuel Hb Hlt Hfuel) as (cs & Hcs & Hcd).
  exists cs. split; [done|]. unfold toCycleString. rewrite Hcs. simpl.
  rewrite render_cycles_concat. do 2 f_equal. apply Forall_fmap_ext_1.
  apply Forall_forall. intros c Hc.
  destruct (values_are_numbers c) as [zs ->].
  { intros v Hv. destruct (cd_members _ _ Hcd c v Hc Hv) as (i & -> & _).
    by exists i. }
  assert (Forall (λ z, 0 ≤ z ≤ 9) zs) as Hd.
  { apply Forall_forall. intros z Hz.
    destruct (cd_members _ _ Hcd (Num <$> zs) (Num z) Hc) as (i & [= <-] & Hi);
      [by apply list_elem_of_fmap_2 | lia]. }
  destruct (join_values_digits zs Hd) as [-> ->]. done.
Qed.

Lemma toCycleString_digits_witness :
  ∃ cs, getCycles 4 (mkPermutation [Num 0; Num 3; Num 2; Num 1]) = Some cs ∧
        toCycleString 4 (mkPermutation [Num 0; Num 3; Num 2; Num 1]) =
          Some (concat ((λ c, [40] ++ join_strings (getChar <$> c) ++ [41])
                          <$> cs)).
Proof.
  apply (toCycleString_digits (mkPermutation [Num 0; Num 3; Num 2; Num 1]) 4).
  - reflexivity.
  - apply below_lengthb_true. reflexivity.
  - unfold plength. simpl. lia.
  - unfold plength. simpl. lia.
Defined.

(** ** Reading back a rendered cycle string *)

Lemma omap_all_None {A B} (f : A → option B) (l : list A) :
  (∀ x, x ∈ l → f x = None) → omap f l = [].
Proof.
  induction l as [|x l IH]; intros H; [done|]. simpl.
  rewrite (H x) by (by left). apply IH. intros y Hy. apply H. by right.
Qed.

Lemma before_app_sep (c : Z) (g rest : jsstring) :
  c ∉ g → before c (g ++ c :: rest) = g.
Proof.
  induction g as [|u g IH]; intros Hc; simpl.
  - by rewrite bool_decide_eq_true_2.
  - apply not_elem_of_cons in Hc as [Hne Hc].
    rewrite bool_decide_eq_false_2 by done. by rewrite IH.
Qed.

Lemma group_at_shift (pre rest : jsstring) (i : nat) :
  group_at (pre ++ rest) (length pre + i) = group_at rest i.
Proof.
  unfold group_at. rewrite lookup_app_r by lia.
  replace (length pre + i - length pre)%nat with i by lia.
  rewrite drop_app_ge by lia.
  by replace (S (length pre + i) - length pre)%nat with (S i) by lia.
Qed.

Lemma groups_from_shift (pre rest : jsstring) (m : nat) :
  groups_from (pre ++ rest) (length pre) m = groups_from rest 0 m.
Proof.
  unfold groups_from.
  replace (seq (length pre) m) with (Nat.add (length pre) <$> seq 0 m)
    by (by rewrite fmap_add_seq, Nat.add_0_r).
  induction (seq 0 m) as [|i l IH]; [done|].
  rewrite fmap_cons. cbn [omap list_omap]. by rewrite group_at_shift, IH.
Qed.

Lemma groups_from_wrapped (g rest : jsstring) :
  40 ∉ g → 41 ∉ g →
  groups_from (([40] ++ g ++ [41]) ++ rest) 0
              (length (([40] ++ g ++ [41]) ++ rest))
    = g :: groups_from rest 0 (length rest).
Proof.
  intros H40 H41.
  assert (∀ i, group_at (([40] ++ g ++ [41]) ++ rest) i =
               match i with
               | O => Some g
               | S k => if bool_decide (k ≤ length g)%nat then None
                        else group_at (([40] ++ g ++ [41]) ++ rest) (S k)
               end) as Hat.
  { intros [|k].
    - unfold group_at. rewrite <- !app_assoc. simpl. rewrite drop_0.
      rewrite bool_decide_eq_true_2 by (apply elem_of_app; right; by left).
      by rewrite before_app_sep.
    - case_bool_decide as Hk; [|done]. unfold group_at.
      rewrite bool_decide_eq_false_2; [done|].
      rewrite <- !app_assoc. simpl.
      destruct (decide (k < length g)%nat).
      + rewrite lookup_app_l by done. intros Hk'.
        by apply list_elem_of_lookup_2 in Hk'.
      + rewrite lookup_app_r by lia.
        replace (k - length g)%nat with 0%nat by lia. done. }
  remember ([40] ++ g ++ [41]) as pre eqn:Hdef.
  assert (length pre = S (S (length g))) as Hpre
    by (subst pre; rewrite !length_app; simpl; lia).
  rewrite length_app, Hpre. unfold groups_from at 1.
  replace (S (S (length g)) + length rest)%nat
    with (1 + (S (length g) + length rest))%nat by lia.
  rewrite seq_app. cbn [seq app omap list_omap]. rewrite (Hat 0%nat).
  f_equal. rewrite seq_app, omap_app, omap_all_None.
  - rewrite app_nil_l.
    replace (0 + 1 + S (length g))%nat with (length pre) by lia.
    apply groups_from_shift.
  - intros i Hi%elem_of_seq. rewrite Hat. destruct i as [|k]; [lia|].
    by rewrite bool_decide_eq_true_2 by lia.
Qed.

Lemma splitCycles_rendered (gs : list jsstring) :
  Forall (λ g, (40 ∉ g) ∧ (41 ∉ g) ∧ (2 ≤ length g)%nat) gs →
  splitCycles (concat ((λ g, [40] ++ g ++ [41]) <$> gs)) = gs.
Proof.
  rewrite splitCycles_spec. unfold spec_groups.
  induction 1 as [|g gs (H40 & H41 & Hlen) _ IH]; [done|].
  rewrite fmap_cons. change (concat (?x :: ?l)) with (x ++ concat l).
  rewrite groups_from_wrapped by done.
  rewrite filter_cons_True by done. by rewrite IH.
Qed.

Lemma char_code_inj (a b : Z) :
  0 ≤ a ≤ MAX_ALLOWED_PERMUTATION_INDEX →
  0 ≤ b ≤ MAX_ALLOWED_PERMUTATION_INDEX →
  char_code a = char_code b → a = b.
Proof.
  intros Ha Hb Heq. apply (f_equal (λ u, parseChar [u])) in Heq.
  rewrite !parseChar_char_code in Heq by done. by injection Heq.
Qed.

Lemma elem_of_codes (z : Z) (zs : list Z) :
  0 ≤ z ≤ MAX_ALLOWED_PERMUTATION_INDEX →
  Forall (λ x, 0 ≤ x ≤ MAX_ALLOWED_PERMUTATION_INDEX) zs →
  char_code z ∈ char_code <$> zs ↔ z ∈ zs.
Proof.
  intros Hz Hr. rewrite Forall_forall in Hr. split.
  - intros (x & Heq & Hx)%list_elem_of_fmap.
    by rewrite (char_code_inj z x Hz (Hr x Hx) Heq).
  - apply list_elem_of_fmap_2.
Qed.

Lemma before_codes (zs : list Z) (k : nat) (z : Z) :
  NoDup zs → Forall (λ x, 0 ≤ x ≤ MAX_ALLOWED_PERMUTATION_INDEX) zs →
  zs !! k = Some z →
  length (before (char_code z) (char_code <$> zs)) = k.
Proof.
  intros Hnd Hr. revert k.
  induction Hr as [|x zs Hx Hr IH]; intros k Hk; [done|].
  apply NoDup_cons in Hnd as [Hnotin Hnd]. rewrite fmap_cons. cbn [before].
  destruct k as [|k]; simpl in Hk.
  - injection Hk as ->. by rewrite bool_decide_eq_true_2.
  - assert (x ≠ z) as Hne
      by (intros ->; by apply Hnotin, (list_elem_of_lookup_2 _ k)).
    rewrite bool_decide_eq_false_2.
    + simpl. f_equal. by apply IH.
    + intros Heq. apply Hne, char_code_inj; [done | | done].
      rewrite Forall_forall in Hr. by apply Hr, (list_elem_of_lookup_2 _ k).
Qed.

(** In the string of a cycle without repetition, the character of an entry
    is followed by the character of the next entry, cyclically. *)
Lemma next_in_cycle_codes (zs : list Z) (k : nat) (z z' : Z) :
  NoDup zs → Forall (λ x, 0 ≤ x ≤ MAX_ALLOWED_PERMUTATION_INDEX) zs →
  zs !! k = Some z → zs !! (S k `mod` length zs)%nat = Some z' →
  next_in_cycle (char_code <$> zs) (char_code z) = char_code z'.
Proof.
  intros Hnd Hr Hk Hnext. unfold next_in_cycle.
  rewrite bool_decide_eq_true_2
    by (apply list_elem_of_fmap_2; by eapply list_elem_of_lookup_2).
  rewrite (before_codes zs k z Hnd Hr Hk), length_fmap, list_lookup_fmap, Hnext.
  done.
Qed.

Lemma foldl_next_absent (gs : list jsstring) (u : Z) :
  Forall (λ g, u ∉ g) gs → foldl (λ u g, next_in_cycle g u) u gs = u.
Proof.
  induction 1 as [|g gs Hg _ IH]; [done|]. cbn [foldl].
  unfold next_in_cycle at 2. by rewrite bool_decide_eq_false_2.
Qed.

Lemma foldl_next_one (gs : list jsstring) (g : jsstring) (u : Z) :
  g ∈ gs →
  (∀ h, h ∈ gs → h ≠ g → (u ∉ h) ∧ (next_in_cycle g u ∉ h)) →
  u ∈ g → NoDup gs →
  foldl (λ u g, next_in_cycle g u) u gs = next_in_cycle g u.
Proof.
  intros Hg Hother Hu Hnd.
  assert (∀ (i j : nat), gs !! i = Some g → gs !! j = Some g → i = j) as Honce
    by (intros i j; apply NoDup_lookup, Hnd).
  apply list_elem_of_lookup_1 in Hg as (k & Hk).
  rewrite <- (take_drop_middle gs k g Hk), foldl_app. cbn [foldl].
  rewrite (foldl_next_absent (take k gs) u).
  - apply foldl_next_absent, Forall_forall. intros h Hh.
    apply list_elem_of_lookup_1 in Hh as (j & Hj).
    rewrite lookup_drop in Hj.
    apply Hother; [by eapply list_elem_of_lookup_2|].
    intros ->. specialize (Honce _ _ Hj Hk). lia.
  - apply Forall_forall. intros h Hh.
    apply list_elem_of_lookup_1 in Hh as (j & Hj).
    apply lookup_take_Some in Hj as [Hj Hlt].
    apply Hother; [by eapply list_elem_of_lookup_2|].
    intros ->. specialize (Honce _ _ Hj Hk). lia.
Qed.

Lemma NoDup_concat_elem {A} (ls : list (list A)) (l : list A) :
  NoDup (concat ls) → l ∈ ls → NoDup l.
Proof.
  induction ls as [|k ls IH]; intros Hnd Hl; [by apply elem_of_nil in Hl|].
  simpl in Hnd. apply NoDup_app in Hnd as (Hk & _ & Hls).
  apply elem_of_cons in Hl as [-> | Hl]; [done | by apply IH].
Qed.

(** The entries of a cycle of a Permutation of length at most 10, as
    digits. *)
Lemma cycle_digits (p : Permutation) (cs : list (list value)) (c : list value) :
  cycle_decomposition p cs → (plength p ≤ 10)%nat → c ∈ cs →
  ∃ zc, c = Num <$> zc ∧ NoDup zc ∧
        Forall (λ z, 0 ≤ z ≤ 9 ∧ z < Z.of_nat (plength p)) zc ∧
        join_values c = char_code <$> zc ∧ (2 ≤ length zc)%nat.
Proof.
  intros Hcd Hten Hc. destruct (values_are_numbers c) as [zc ->].
  { intros v Hv. destruct (cd_members _ _ Hcd c v Hc Hv) as (i & -> & _).
    by exists i. }
  assert (Forall (λ z, 0 ≤ z ≤ 9 ∧ z < Z.of_nat (plength p)) zc) as Hd.
  { apply Forall_forall. intros z Hz.
    destruct (cd_members _ _ Hcd (Num <$> zc) (Num z) Hc) as (i & [= <-] & Hi);
      [by apply list_elem_of_fmap_2 | lia]. }
  exists zc. split; [done|]. split; [|split; [done|split]].
  - apply (proj1 (NoDup_fmap Num zc)).
    apply (NoDup_concat_elem cs); [apply (cd_disjoint _ _ Hcd) | done].
  - apply join_values_digits. eapply Forall_impl; [done|]. simpl. lia.
  - pose proof (cycle_at_least_two p cs _ Hcd Hc) as Hlen.
    by rewrite length_fmap in Hlen.
Qed.

Lemma codes_inj (l1 l2 : list Z) :
  Forall (λ x, 0 ≤ x ≤ MAX_ALLOWED_PERMUTATION_INDEX) l1 →
  Forall (λ x, 0 ≤ x ≤ MAX_ALLOWED_PERMUTATION_INDEX) l2 →
  char_code <$> l1 = char_code <$> l2 → l1 = l2.
Proof.
  intros H1. revert l2. induction H1 as [|x l1 Hx _ IH]; intros l2 H2 Heq.
  - by destruct l2.
  - destruct H2 as [|y l2 Hy H2]; [done|]. injection Heq as Hxy Heq.
    f_equal; [by apply char_code_inj | by apply IH].
Qed.

Lemma wide_range (z : Z) :
  0 ≤ z ≤ 9 → 0 ≤ z ≤ MAX_ALLOWED_PERMUTATION_INDEX.
Proof. unfold MAX_ALLOWED_PERMUTATION_INDEX. lia. Qed.

Section cycle_strings.
Context (p : Permutation) (cs : list (list value)).
Context (Hb : built p) (Hlt : below_length p).
Context (Hcd : cycle_decomposition p cs) (Hten : (plength p ≤ 10)%nat).

Lemma code_in_cycle (c : list value) (z : Z) :
  c ∈ cs → 0 ≤ z ≤ MAX_ALLOWED_PERMUTATION_INDEX →
  char_code z ∈ join_values c ↔ Num z ∈ c.
Proof.
  intros Hc Hz.
  destruct (cycle_digits p cs c Hcd Hten Hc) as (zc & -> & _ & Hd & -> & _).
  rewrite elem_of_codes; [| done |].
  - split; [apply list_elem_of_fmap_2|].
    by intros (x & [= <-] & Hx)%list_elem_of_fmap.
  - eapply Forall_impl; [done|]. simpl. intros x [Hx _]. by apply wide_range.
Qed.

Lemma same_cycle (c c' : list value) (v : value) :
  c ∈ cs → c' ∈ cs → v ∈ c → v ∈ c' → c = c'.
Proof.
  intros (a & Ha)%list_elem_of_lookup_1 (b & Hb')%list_elem_of_lookup_1 Hv Hv'.
  pose proof (cycle_decomposition_one_cycle p cs a b c c' v Hcd Ha Hb' Hv Hv').
  subst b. congruence.
Qed.

Lemma join_values_cycles_inj (c c' : list value) :
  c ∈ cs → c' ∈ cs → join_values c = join_values c' → c = c'.
Proof.
  intros Hc Hc' Heq.
  destruct (cycle_digits p cs c Hcd Hten Hc) as (zc & -> & _ & Hd & Hj & _).
  destruct (cycle_digits p cs c' Hcd Hten Hc') as (zc' & -> & _ & Hd' & Hj' & _).
  rewrite Hj, Hj' in Heq. f_equal. apply codes_inj; [| | done].
  - eapply Forall_impl; [exact Hd|]. simpl. intros x [Hx _]. by apply wide_range.
  - eapply Forall_impl; [exact Hd'|]. simpl. intros x [Hx _]. by apply wide_range.
Qed.

Lemma NoDup_cycle_strings : NoDup (join_values <$> cs).
Proof.
  apply NoDup_fmap_2_strong; [intros c c'; apply join_values_cycles_inj|].
  apply NoDup_alt. intros a b c Ha Hb'.
  pose proof (cycle_at_least_two p cs c Hcd (list_elem_of_lookup_2 _ _ _ Ha)) as Hlen.
  destruct c as [|v c]; [simpl in Hlen; lia|].
  apply (cycle_decomposition_one_cycle p cs a b (v :: c) (v :: c) v Hcd Ha Hb');
    by left.
Qed.

Lemma get_in_domain (i : Z) :
  0 ≤ i < Z.of_nat (plength p) →
  ∃ j, get p (Num i) = Num j ∧ 0 ≤ j < Z.of_nat (plength p).
Proof.
  intros Hi. destruct (segment_perm_values p Hb Hlt) as (zs & Hzs & Hseg).
  destruct p as [l]. simpl in Hzs. subst l. unfold plength in *. simpl in *.
  rewrite length_fmap in *. by apply get_segment.
Qed.

(** The cycles, written as strings and applied in the reverse order, map
    every index to its image. *)
Lemma spec_image_cycles (i : Z) :
  0 ≤ i < Z.of_nat (plength p) →
  spec_image (join_values <$> cs) i = get p (Num i).
Proof.
  intros Hi. destruct (get_in_domain i Hi) as (j & Hj & Hjr).
  unfold spec_image.
  destruct (decide (at_ p i = Num i)) as [Hfix | Hmoved].
  - rewrite foldl_next_absent.
    + rewrite parseChar_char_code by (apply wide_range; lia).
      by rewrite <- at_get.
    + apply Forall_forall. intros g Hg. rewrite elem_of_reverse in Hg.
      apply list_elem_of_fmap in Hg as (c & -> & Hc).
      rewrite code_in_cycle by (done || apply wide_range; lia).
      intros Hin. by apply (cd_fixed _ _ Hcd c i Hc Hin).
  - destruct (cd_cover _ _ Hcd i Hi Hmoved) as (c & Hc & Hin).
    pose proof Hin as (k & Hk)%list_elem_of_lookup_1.
    pose proof (cd_orbit _ _ Hcd c k (Num i) Hc Hk) as Hnext. rewrite Hj in Hnext.
    destruct (cycle_digits p cs c Hcd Hten Hc) as (zc & Hzc & Hnd & Hd & Hjoin & _).
    assert (next_in_cycle (join_values c) (char_code i) = char_code j) as Hstep.
    { rewrite Hjoin. subst c. rewrite length_fmap in Hnext.
      apply list_lookup_fmap_Some in Hk as (x & [= <-] & Hk).
      apply list_lookup_fmap_Some in Hnext as (y & [= <-] & Hnext).
      apply (next_in_cycle_codes zc k); try done.
      eapply Forall_impl; [exact Hd|]. simpl. intros x [Hx _].
      by apply wide_range. }
    rewrite (foldl_next_one _ (join_values c)).
    + rewrite Hstep, parseChar_char_code by (apply wide_range; lia). done.
    + apply elem_of_reverse. by apply list_elem_of_fmap_2.
    + intros h Hh Hne. rewrite elem_of_reverse in Hh.
      apply list_elem_of_fmap in Hh as (c' & -> & Hc'). rewrite Hstep.
      rewrite !code_in_cycle by (done || apply wide_range; lia).
      split; intros Hin'; apply Hne; f_equal.
      * by apply (same_cycle c' c (Num i)).
      * apply (same_cycle c' c (Num j)); try done.
        by eapply list_elem_of_lookup_2.
    + apply code_in_cycle; [done | apply wide_range; lia | done].
    + rewrite reverse_Permutation. apply NoDup_cycle_strings.
Qed.

Lemma cycle_strings_wellformed :
  Forall (λ g, (40 ∉ g) ∧ (41 ∉ g) ∧ (2 ≤ length g)%nat) (join_values <$> cs).
Proof.
  rewrite Forall_fmap. apply Forall_forall. intros c Hc.
  destruct (cycle_digits p cs c Hcd Hten Hc) as (zc & _ & _ & Hd & Hjoin & Hlen).
  simpl. rewrite Hjoin, length_fmap. rewrite Forall_forall in Hd.
  split; [|split; [|done]].
  - intros (z & Hz & Hin)%list_elem_of_fmap.
    apply (char_code_not_paren z 40); [apply wide_range, Hd, Hin | by left | done].
  - intros (z & Hz & Hin)%list_elem_of_fmap.
    apply (char_code_not_paren z 41); [apply wide_range, Hd, Hin | by right | done].
Qed.

Lemma toCycleString_rendered (fuel : nat) :
  getCycles fuel p = Some cs →
  toCycleString fuel p =
    Some (concat ((λ g, [40] ++ g ++ [41]) <$> (join_values <$> cs))).
Proof.
  intros Hcs. unfold toCycleString. rewrite Hcs. simpl.
  by rewrite render_cycles_concat, <- list_fmap_compose.
Qed.
End cycle_strings.

(** X20. Round trip through the cycle string with the length supplied: for
    a built Permutation of length between 1 and 10 whose stored values are
    below its length, [fromCycleString] applied to its cycle string and to
    its last index builds the same Permutation, the identity included. *)
Theorem cycle_string_round_trip (p : Permutation) (fuel : nat) :
  built p → below_length p → (1 ≤ plength p ≤ 10)%nat →
  (plength p ≤ fuel)%nat →
  ∃ s, toCycleString fuel p = Some s ∧
       fromCycleString s (Num (Z.of_nat (plength p) - 1)) = Normal (Some p).
Proof.
  intros Hb Hlt [Hone Hten] Hfuel.
  destruct (getCycles_segment p fuel Hb Hlt Hfuel) as (cs & Hcs & Hcd).
  eexists. split; [by apply (toCycleString_rendered p cs)|].
  unfold fromCycleString.
  rewrite splitCycles_rendered by (by apply (cycle_strings_wellformed p cs)).
  replace (Z.to_nat (Z.of_nat (plength p) - 1 + 1)) with (plength p) by lia.
  rewrite fromCycleString_array_spec.
  2:{ apply Forall_forall. intros i Hi%elem_of_counter.
      unfold MAX_ALLOWED_PERMUTATION_INDEX. lia. }
  f_equal.
  assert (spec_image (join_values <$> cs) <$> counter 0 (plength p)
          = values p) as ->; [|by apply built_iff].
  pose proof (get_counter p) as Hg. unfold PERMUTATION_INDEX in Hg.
  rewrite <- Hg at 1.
  apply Forall_fmap_ext_1, Forall_forall. intros i Hi%elem_of_counter.
  apply (spec_image_cycles p cs Hb Hlt Hcd Hten). lia.
Qed.

Lemma cycle_string_round_trip_witness :
  ∃ s, toCycleString 4 (mkPermutation [Num 0; Num 3; Num 2; Num 1]) = Some s ∧
       fromCycleString s
         (Num (Z.of_nat (plength (mkPermutation [Num 0; Num 3; Num 2; Num 1])) - 1))
         = Normal (Some (mkPermutation [Num 0; Num 3; Num 2; Num 1])).
Proof.
  apply (cycle_string_round_trip (mkPermutation [Num 0; Num 3; Num 2; Num 1]) 4).
  - reflexivity.
  - apply below_lengthb_true. reflexivity.
  - unfold plength. simpl. lia.
  - unfold plength. simpl. lia.
Defined.

Lemma get_counter_take (p : Permutation) (m : nat) :
  (m ≤ plength p)%nat →
  (λ i, get p (Num i)) <$> counter 0 m = take m (values p).
Proof.
  intros Hm. apply list_eq. intros k. rewrite list_lookup_fmap.
  destruct (decide (k < m)%nat) as [Hk | Hk].
  - rewrite lookup_counter, lookup_take_lt by done.
    destruct (lookup_lt_is_Some_2 (values p) k) as [v Hv];
      [unfold plength in Hm; lia|].
    rewrite Hv. simpl. f_equal. rewrite Z.add_0_l. by apply get_lookup.
  - rewrite lookup_take_ge by lia.
    by rewrite (proj2 (lookup_ge_None _ _)) by (rewrite length_counter; lia).
Qed.

Lemma built_take (p : Permutation) (m : nat) :
  built p → new_Permutation (take m (values p))
            = Some (mkPermutation (take m (values p))).
Proof.
  intros [Hnd Hr]%validatePermutationArray_true.
  apply new_Permutation_Some. split; [done|]. split.
  - eapply sublist_NoDup; [exact Hnd | apply sublist_take].
  - by apply Forall_take.
Qed.

(** X21. Round trip through the cycle string with the length inferred: for
    a built Permutation of length between 1 and 10 whose stored values are
    below its length, [fromString] applied to its cycle string builds a
    Permutation that is a prefix of it, and every index that is dropped is
    a fixed point. The identity comes back as the identity of length 1. *)
Theorem cycle_string_inferred_round_trip (p : Permutation) (fuel : nat) :
  built p → below_length p → (1 ≤ plength p ≤ 10)%nat →
  (plength p ≤ fuel)%nat →
  ∃ s q, toCycleString fuel p = Some s ∧
         fromString s = Normal (Some q) ∧
         (1 ≤ plength q ≤ plength p)%nat ∧
         values q = take (plength q) (values p) ∧
         ∀ i, Z.of_nat (plength q) ≤ i < Z.of_nat (plength p) →
              at_ p i = Num i.
Proof.
  intros Hb Hlt [Hone Hten] Hfuel.
  destruct (getCycles_segment p fuel Hb Hlt Hfuel) as (cs & Hcs & Hcd).
  pose proof (toCycleString_rendered p cs fuel Hcs) as Hs.
  assert (∀ i, 0 ≤ i < Z.of_nat (plength p) → at_ p i ≠ Num i →
               ∃ c, c ∈ cs ∧ char_code i ∈ join_values c) as Hcode.
  { intros i Hi Hmoved. destruct (cd_cover _ _ Hcd i Hi Hmoved) as (c & Hc & Hin).
    exists c. split; [done|].
    apply (code_in_cycle p cs Hcd Hten); [done | apply wide_range; lia | done]. }
  destruct (decide (cs = [])) as [-> | Hne].
  { (* no cycle: the string is empty *)
    exists [], (mkPermutation [Num 0]). split; [done|]. split; [reflexivity|].
    assert (∀ i, 0 ≤ i < Z.of_nat (plength p) → at_ p i = Num i) as Hfix.
    { intros i Hi. destruct (decide (at_ p i = Num i)) as [|Hm]; [done|].
      destruct (Hcode i Hi Hm) as (c & Hc%elem_of_nil & _). done. }
    split; [unfold plength at 1 2; simpl; lia|]. split.
    - rewrite <- (get_counter_take p) by (unfold plength at 1; simpl; lia).
      change (plength (mkPermutation [Num 0])) with 1%nat.
      change (counter 0 1) with [0]. cbn [fmap list_fmap values].
      f_equal. rewrite <- at_get. symmetry. apply Hfix. lia.
    - intros i Hi. apply Hfix. lia. }
  set (gs := join_values <$> cs) in *.
  set (M := getHighestChar gs).
  pose proof (getHighestChar_bounds gs) as HM. fold M in HM.
  pose proof (getHighestChar_is_highest gs) as [Hup Hatt]. fold M in Hup, Hatt.
  assert (M < Z.of_nat (plength p)) as HMn.
  { destruct Hatt as [-> | (g & u & Hg & Hu & Hparse)]; [lia|].
    apply list_elem_of_fmap in Hg as (c & -> & Hc).
    destruct (cycle_digits p cs c Hcd Hten Hc) as (zc & _ & _ & Hd & Hjoin & _).
    rewrite Hjoin in Hu. apply list_elem_of_fmap in Hu as (z & -> & Hz).
    rewrite Forall_forall in Hd. specialize (Hd z Hz).
    rewrite parseChar_char_code in Hparse by (apply wide_range; lia).
    injection Hparse as <-. lia. }
  assert (∀ i, M < i < Z.of_nat (plength p) → at_ p i = Num i) as Hfix.
  { intros i Hi. destruct (decide (at_ p i = Num i)) as [|Hm]; [done|].
    destruct (Hcode i ltac:(lia) Hm) as (c & Hc & Hin).
    assert (i ≤ M); [|lia].
    apply (Hup (join_values c) (char_code i)); [by apply list_elem_of_fmap_2 | done |].
    apply parseChar_char_code, wide_range. lia. }
  eexists _, (mkPermutation (take (Z.to_nat (M + 1)) (values p))).
  split; [exact Hs|]. split.
  - unfold fromString.
    rewrite bool_decide_eq_true_2.
    2:{ subst gs. destruct cs as [|c cs'']; [done|]. by eexists. }
    unfold fromCycleString.
    rewrite splitCycles_rendered by (by apply (cycle_strings_wellformed p cs)).
    fold M. rewrite fromCycleString_array_spec.
    2:{ apply Forall_forall. intros i Hi%elem_of_counter. lia. }
    f_equal. rewrite <- built_take by done. f_equal.
    rewrite <- get_counter_take by lia.
    apply Forall_fmap_ext_1, Forall_forall. intros i Hi%elem_of_counter.
    apply (spec_image_cycles p cs Hb Hlt Hcd Hten). lia.
  - assert (plength (mkPermutation (take (Z.to_nat (M + 1)) (values p)))
            = Z.to_nat (M + 1)) as Hlen.
    { unfold plength. simpl. rewrite length_take. unfold plength in HMn. lia. }
    rewrite Hlen. split; [lia|]. split; [done|].
    intros i Hi. apply Hfix. lia.
Qed.

Lemma cycle_string_inferred_round_trip_witness :
  ∃ s q, toCycleString 4 (mkPermutation [Num 1; Num 0; Num 2; Num 3]) = Some s ∧
         fromString s = Normal (Some q) ∧
         (1 ≤ plength q ≤ plength (mkPermutation [Num 1; Num 0; Num 2; Num 3]))%nat ∧
         values q = take (plength q)
                      (values (mkPermutation [Num 1; Num 0; Num 2; Num 3])) ∧
         ∀ i, Z.of_nat (plength q)
              ≤ i < Z.of_nat (plength (mkPermutation [Num 1; Num 0; Num 2; Num 3])) →
              at_ (mkPermutation [Num 1; Num 0; Num 2; Num 3]) i = Num i.
Proof.
  apply (cycle_string_inferred_round_trip
           (mkPermutation [Num 1; Num 0; Num 2; Num 3]) 4).
  - reflexivity.
  - apply below_lengthb_true. reflexivity.
  - unfold plength. simpl. lia.
  - unfold plength. simpl. lia.
Defined.
